(** * Gate approval state machine of chromium-dashboard

    A shallow embedding of [internals/approval_defs.py]: the vote
    aggregator [_calc_gate_state], the vote submission coordinator
    [set_vote], reviewer auto-assignment and the approver resolver,
    together with the properties their specification states. *)

From stdpp Require Import base decidable option list gmap strings pretty.
From Stdlib Require Import ZArith Sorted Ascii.

Local Open Scope string_scope.
Local Open Scope Z_scope.

(** ** Constants of [internals.review_models] *)

(** Modelled from the spec: the integer codes of the states, which
    [internals.review_models] declares with the [Vote] and [Gate] entity
    classes.  [approval_defs] compares them for equality only, so they
    are parameters; the eleven vote states form an enumeration and gate
    states "reuse this enumeration plus a distinct PREPARING initial
    state", hence the codes are pairwise different. *)
Class review_models := {
  PREPARING : Z;
  NO_RESPONSE : Z;
  NEEDS_WORK : Z;
  REVIEW_REQUESTED : Z;
  REVIEW_STARTED : Z;
  INTERNAL_REVIEW : Z;
  DENIED : Z;
  APPROVED : Z;
  NA : Z;
  NA_REQUESTED : Z;
  NA_SELF : Z;
  NA_VERIFIED : Z;
  states_distinct :
    NoDup [PREPARING; NO_RESPONSE; NEEDS_WORK; REVIEW_REQUESTED;
           REVIEW_STARTED; INTERNAL_REVIEW; DENIED; APPROVED; NA;
           NA_REQUESTED; NA_SELF; NA_VERIFIED]
}.

(** A [Vote] entity.  [set_on] is a [datetime]; only its order is used, so
    it is a point on the integer time line.  [gate_type] is optional
    because [set_vote] stores whatever its caller passed, [None]
    included. *)
Record Vote := mkVote {
  feature_id : Z;
  gate_id : option Z;
  gate_type : option Z;
  state : Z;
  set_on : Z;
  set_by : string
}.

Global Instance Vote_eq_dec : EqDecision Vote.
Proof. solve_decision. Defined.

(** ** Python library functions used by the aggregator *)

(** [collections.Counter(xs)]: one pass over [xs], adding one to the entry
    of each element.  Reading a missing key gives [0], which is [!!!] on a
    map of naturals. *)
Definition Counter (xs : list Z) : gmap Z nat :=
  foldl (λ c x, <[x := S (c !!! x)]> c) ∅ xs.

(** [sorted(l, reverse=True, key=key)].  Python's sort is stable and
    [reverse=True] keeps that: items come out by decreasing key and items
    with equal keys stay in their original order.  [insert_desc] puts [x]
    in front of the first item whose key is not larger. *)
Fixpoint insert_desc {A} (key : A → Z) (x : A) (l : list A) : list A :=
  match l with
  | [] => [x]
  | y :: l' =>
      if decide (key x < key y) then y :: insert_desc key x l'
      else x :: y :: l'
  end.

Definition sorted_reverse {A} (key : A → Z) (l : list A) : list A :=
  foldr (insert_desc key) [] l.

(** The order of the result: [x] may come before [y]. *)
Definition key_ge {A} (key : A → Z) (x y : A) : Prop := key y ≤ key x.

(** ** The vote aggregator *)

Definition ONE_LGTM : string := "One LGTM".
Definition THREE_LGTM : string := "Three LGTMs".

Section aggregator.
Context `{RM : review_models}.

(** The tuple of states tested in the loop of [_calc_gate_state]. *)
Definition review_states : list Z :=
  [NEEDS_WORK; REVIEW_STARTED; REVIEW_REQUESTED;
   DENIED; INTERNAL_REVIEW; NA_REQUESTED].

(** The first [if] block: [Some s] when it returns [s], [None] when
    control falls through to the quorum test. *)
Definition na_self_case (votes : list Vote) (counts : gmap Z nat)
    (rule : string) : option Z :=
  if decide (counts !!! NA_SELF = 1%nat ∧ rule = ONE_LGTM) then
    if decide (length votes = 1%nat) then Some NA_SELF
    else if decide (1 ≤ counts !!! NA_VERIFIED)%nat then Some NA_VERIFIED
    else None
  else None.

(** The [for] loop over the votes, most recent first: the state of the
    first vote whose state is in [review_states], if any. *)
Definition most_recent_review (votes : list Vote) : option Z :=
  state <$> List.find (λ v, bool_decide (state v ∈ review_states))
                      (sorted_reverse set_on votes).

Definition _calc_gate_state (votes0 : list Vote) (rule : string) : Z :=
  let votes := filter (λ v, state v ≠ NO_RESPONSE) votes0 in
  let counts := Counter (state <$> votes) in
  match na_self_case votes counts rule with
  | Some s => s
  | None =>
    let num_lgtms := (counts !!! APPROVED + counts !!! NA)%nat in
    if decide ((rule = ONE_LGTM ∧ 1 ≤ num_lgtms)%nat
               ∨ (rule = THREE_LGTM ∧ 3 ≤ num_lgtms)%nat) then
      if decide (0 < counts !!! NA)%nat then NA else APPROVED
    else
      match most_recent_review votes with
      | Some s => s
      | None =>
        if decide (rule = THREE_LGTM ∧ 1 ≤ num_lgtms)%nat
        then REVIEW_REQUESTED
        else PREPARING
      end
  end.
End aggregator.

(** ** The gate catalog *)

(** The gate type codes that [internals.core_enums] declares: parameters
    of the catalog. *)
Class core_enums := {
  GATE_API_PROTOTYPE : Z;
  GATE_API_ORIGIN_TRIAL : Z;
  GATE_API_EXTEND_ORIGIN_TRIAL : Z;
  GATE_API_SHIP : Z;
  GATE_API_PLAN : Z;
  GATE_PRIVACY_ORIGIN_TRIAL : Z;
  GATE_PRIVACY_SHIP : Z;
  GATE_SECURITY_ORIGIN_TRIAL : Z;
  GATE_SECURITY_SHIP : Z;
  GATE_ENTERPRISE_SHIP : Z;
  GATE_ENTERPRISE_PLAN : Z;
  GATE_DEBUGGABILITY_ORIGIN_TRIAL : Z;
  GATE_DEBUGGABILITY_SHIP : Z;
  GATE_DEBUGGABILITY_PLAN : Z;
  GATE_TESTING_SHIP : Z;
  GATE_TESTING_PLAN : Z
}.

Definition APPROVERS_CACHE_KEY : string := "approvers".
Definition CACHE_EXPIRATION : Z := 60 * 60.
Definition IN_NDB : string := "stored in ndb".

Definition API_OWNERS_URL : string :=
  "https://chromium.googlesource.com/chromium/src/+/" +:+
  "main/third_party/blink/API_OWNERS?format=TEXT".
Definition PRIVACY_APPROVERS : string := IN_NDB.
Definition SECURITY_APPROVERS : string := IN_NDB.
Definition ENTERPRISE_APPROVERS : list string :=
  ["mhoste@google.com"; "angelaweber@google.com"; "davidayad@google.com";
   "omole@google.com"; "nsamarakkody@google.com"; "pastarmovj@google.com";
   "aaudi@google.com"; "kimreardon@google.com"; "elmirakalali@google.com"].
Definition DEBUGGABILITY_APPROVERS : string := IN_NDB.
Definition TESTING_APPROVERS : list string :=
  ["sadapala@google.com"; "santhoshkumarm@google.com"; "maguschen@google.com";
   "karala@google.com"; "aichein@google.com"].

Definition DEFAULT_SLO_LIMIT : Z := 5.
Definition DEFAULT_SLO_RESOLVE_LIMIT : Z := 10.

(** The dataclass [GateInfo].  [approvers] has type [str | list[str]]:
    a string on the left, a list of addresses on the right. *)
Record GateInfo := mkGateInfo {
  name : string;
  description : string;
  gi_gate_type : Z;
  rule : string;
  approvers : string + list string;
  team_name : string;
  escalation_email : option string;
  slo_initial_response : Z;
  slo_resolve : Z
}.

Section catalog.
Context `{CE : core_enums}.

Definition PrototypeApproval : GateInfo :=
  mkGateInfo "Intent to Prototype"
    "Not normally used.  If a review is requested, API Owners can approve."
    GATE_API_PROTOTYPE ONE_LGTM (inl API_OWNERS_URL) "API Owners"
    None DEFAULT_SLO_LIMIT DEFAULT_SLO_RESOLVE_LIMIT.

Definition ExperimentApproval : GateInfo :=
  mkGateInfo "Intent to Experiment"
    "One API Owner must approve your intent"
    GATE_API_ORIGIN_TRIAL ONE_LGTM (inl API_OWNERS_URL) "API Owners"
    None DEFAULT_SLO_LIMIT DEFAULT_SLO_RESOLVE_LIMIT.

Definition ExtendExperimentApproval : GateInfo :=
  mkGateInfo "Intent to Extend Experiment"
    "One API Owner must approve your intent"
    GATE_API_EXTEND_ORIGIN_TRIAL ONE_LGTM (inl API_OWNERS_URL) "API Owners"
    None DEFAULT_SLO_LIMIT DEFAULT_SLO_RESOLVE_LIMIT.

Definition ShipApproval : GateInfo :=
  mkGateInfo "Intent to Ship"
    "Three API Owners must approve your intent"
    GATE_API_SHIP THREE_LGTM (inl API_OWNERS_URL) "API Owners"
    None DEFAULT_SLO_LIMIT DEFAULT_SLO_RESOLVE_LIMIT.

Definition PlanApproval : GateInfo :=
  mkGateInfo "Intent to Deprecate and Remove"
    "Three API Owners must approve your intent"
    GATE_API_PLAN THREE_LGTM (inl API_OWNERS_URL) "API Owners"
    None DEFAULT_SLO_LIMIT DEFAULT_SLO_RESOLVE_LIMIT.

Definition PrivacyOriginTrialApproval : GateInfo :=
  mkGateInfo "Privacy OT Review" "Privacy OT Review"
    GATE_PRIVACY_ORIGIN_TRIAL ONE_LGTM (inl PRIVACY_APPROVERS) "Privacy"
    (Some "chrome-privacy-owp-rotation@google.com")
    6 DEFAULT_SLO_RESOLVE_LIMIT.

Definition PrivacyShipApproval : GateInfo :=
  mkGateInfo "Privacy Ship Review" "Privacy Ship Review"
    GATE_PRIVACY_SHIP ONE_LGTM (inl PRIVACY_APPROVERS) "Privacy"
    (Some "chrome-privacy-owp-rotation@google.com")
    6 DEFAULT_SLO_RESOLVE_LIMIT.

Definition SecurityOriginTrialApproval : GateInfo :=
  mkGateInfo "Security OT Review" "Security OT Review"
    GATE_SECURITY_ORIGIN_TRIAL ONE_LGTM (inl SECURITY_APPROVERS)
    "WP Security" None 6 DEFAULT_SLO_RESOLVE_LIMIT.

Definition SecurityShipApproval : GateInfo :=
  mkGateInfo "Security Ship Review" "Security Ship Review"
    GATE_SECURITY_SHIP ONE_LGTM (inl SECURITY_APPROVERS)
    "WP Security" None 6 DEFAULT_SLO_RESOLVE_LIMIT.

Definition EnterpriseShipApproval : GateInfo :=
  mkGateInfo "Enterprise Ship Review" "Enterprise Ship Review"
    GATE_ENTERPRISE_SHIP ONE_LGTM (inr ENTERPRISE_APPROVERS) "Enterprise"
    None DEFAULT_SLO_LIMIT DEFAULT_SLO_RESOLVE_LIMIT.

Definition EnterprisePlanApproval : GateInfo :=
  mkGateInfo "Enterprise Deprecation Plan Review"
    "Enterprise Deprecation Plan Review"
    GATE_ENTERPRISE_PLAN ONE_LGTM (inr ENTERPRISE_APPROVERS) "Enterprise"
    None DEFAULT_SLO_LIMIT DEFAULT_SLO_RESOLVE_LIMIT.

Definition DebuggabilityOriginTrialApproval : GateInfo :=
  mkGateInfo "Debuggability OT Review" "Debuggability OT Review"
    GATE_DEBUGGABILITY_ORIGIN_TRIAL ONE_LGTM (inl DEBUGGABILITY_APPROVERS)
    "Debuggability" (Some "devtools-dev@chromium.org")
    DEFAULT_SLO_LIMIT DEFAULT_SLO_RESOLVE_LIMIT.

Definition DebuggabilityShipApproval : GateInfo :=
  mkGateInfo "Debuggability Ship Review" "Debuggability Ship Review"
    GATE_DEBUGGABILITY_SHIP ONE_LGTM (inl DEBUGGABILITY_APPROVERS)
    "Debuggability" (Some "devtools-dev@chromium.org")
    DEFAULT_SLO_LIMIT DEFAULT_SLO_RESOLVE_LIMIT.

Definition DebuggabilityPlanApproval : GateInfo :=
  mkGateInfo "Debuggability Deprecation Plan Review"
    "Debuggability Deprecation Plan Review"
    GATE_DEBUGGABILITY_PLAN ONE_LGTM (inl DEBUGGABILITY_APPROVERS)
    "Debuggability" (Some "devtools-dev@chromium.org")
    DEFAULT_SLO_LIMIT DEFAULT_SLO_RESOLVE_LIMIT.

Definition TestingShipApproval : GateInfo :=
  mkGateInfo "Testing Ship Review" "Testing Ship Review"
    GATE_TESTING_SHIP ONE_LGTM (inr TESTING_APPROVERS) "Testing"
    None DEFAULT_SLO_LIMIT DEFAULT_SLO_RESOLVE_LIMIT.

Definition TestingPlanApproval : GateInfo :=
  mkGateInfo "Testing Deprecation Plan Review"
    "Testing Deprecation Plan Review"
    GATE_TESTING_PLAN ONE_LGTM (inr TESTING_APPROVERS) "Testing"
    None DEFAULT_SLO_LIMIT DEFAULT_SLO_RESOLVE_LIMIT.

(** The dict comprehension: entries are added in list order, a later
    entry replacing an earlier one with the same key. *)
Definition APPROVAL_FIELDS_BY_ID : gmap Z GateInfo :=
  foldl (λ d afd, <[gi_gate_type afd := afd]> d) ∅
    [PrototypeApproval; ExperimentApproval; ExtendExperimentApproval;
     ShipApproval; PlanApproval;
     PrivacyOriginTrialApproval; PrivacyShipApproval;
     SecurityOriginTrialApproval; SecurityShipApproval;
     EnterpriseShipApproval; EnterprisePlanApproval;
     DebuggabilityOriginTrialApproval; DebuggabilityShipApproval;
     DebuggabilityPlanApproval;
     TestingShipApproval; TestingPlanApproval].

Definition is_valid_gate_type (gate_type : Z) : bool :=
  bool_decide (gate_type ∈ dom APPROVAL_FIELDS_BY_ID).
End catalog.


(** ** Entities and the world around the module *)

Module Gate.
(** Modelled from the spec: a [Gate] entity "holds a feature
    identifier, a gate type, a current aggregate state, an optional
    assignee list, and timestamps"; the timestamps are the fields the
    SLO recorder may write. *)
Record t := mk {
  feature_id : Z;
  gate_type : Z;
  state : Z;
  assignee_emails : list string;
  timestamps : list (option Z)
}.
End Gate.

(** An entity held in memory: the integer id of its key and its fields. *)
Definition entity (A : Type) : Type := Z * A.
Definition integer_id {A} (e : entity A) : Z := e.1.

(** Modelled from the spec: an [OwnersFile] entity "holds the source
    URL, raw fetched content, and a freshness timestamp". *)
Record OwnersFile := mkOwnersFile {
  url : string;
  raw_content : string;
  created_on : Z
}.

(** A [GateDef] entity, with the two attributes the module reads. *)
Record GateDef := mkGateDef {
  gd_approvers : list string;
  rotation_url : option string
}.

(** The object [requests.get] returns. *)
Record Response := mkResponse {
  status_code : Z;
  content : string
}.

(** What a call leaves behind apart from the stored rows. *)
Inductive event :=
  | Logged (level : string) (message : string)
  | HttpGet (target : string).

Global Instance event_eq_dec : EqDecision event.
Proof. solve_decision. Defined.

(** The persistent store, the cache and the trace of log lines and
    requests.  A cache entry carries the time at which it expires. *)
Record World := mkWorld {
  votes : gmap Z Vote;
  gates : gmap Z Gate.t;
  owners_files : gmap string OwnersFile;
  cache : gmap string (Z * list string);
  trace : list event
}.

Definition with_votes (f : gmap Z Vote → gmap Z Vote) (w : World) : World :=
  mkWorld (f (votes w)) (gates w) (owners_files w) (cache w) (trace w).
Definition with_gates (f : gmap Z Gate.t → gmap Z Gate.t) (w : World) : World :=
  mkWorld (votes w) (f (gates w)) (owners_files w) (cache w) (trace w).
Definition with_owners_files
    (f : gmap string OwnersFile → gmap string OwnersFile) (w : World) : World :=
  mkWorld (votes w) (gates w) (f (owners_files w)) (cache w) (trace w).
Definition with_cache
    (f : gmap string (Z * list string) → gmap string (Z * list string))
    (w : World) : World :=
  mkWorld (votes w) (gates w) (owners_files w) (f (cache w)) (trace w).
Definition emit (e : event) (w : World) : World :=
  mkWorld (votes w) (gates w) (owners_files w) (cache w) (trace w ++ [e]).

(** The exceptions that leave the functions below. *)
Inductive exn :=
  | ValueError (message : string)
  | KeyError (key : Z)
  | TypeError
  | UnboundLocalError (variable : string).

(** How a call ends: with a value or with an exception. *)
Inductive outcome (A : Type) :=
  | Return (a : A)
  | Raise (e : exn).
Arguments Return {A} a.
Arguments Raise {A} e.

(** What [approval_defs] calls outside itself and the datastore:
    [slo.record_vote], which may write to the gate it is given and
    reports whether it did; [GateDef.get_gate_def]; [requests.get];
    [OwnersFile.is_fresh] at a given time; [decode_raw_owner_content],
    whose base64 and text handling plays no part in what is proved here;
    and the [json] module, where [json_loads] gives [None] when
    [json.loads] raises [ValueError] and the two operations on a parsed
    value may raise as Python's do on a value of the wrong type. *)
Class collaborators := {
  record_vote : entity Gate.t → list (entity Vote) → Z → entity Gate.t * bool;
  get_gate_def : Z → GateDef;
  requests_get : string → Response;
  is_fresh : Z → OwnersFile → bool;
  decode_raw_owner_content : string → outcome (list string);
  json : Type;
  json_loads : string → option json;
  json_contains : string → json → outcome bool;
  json_getitem : json → string → outcome (list string)
}.

(** *** Datastore operations *)

(** [entity.put()] of an entity that has a key. *)
Definition put_vote (e : entity Vote) (w : World) : World :=
  with_votes (insert (integer_id e) e.2) w.
Definition put_gate (e : entity Gate.t) (w : World) : World :=
  with_gates (insert (integer_id e) e.2) w.

(** [entity.put()] of a new entity: the store picks an id that no row of
    the kind has. *)
Definition put_new_vote (v : Vote) (w : World) : entity Vote * World :=
  let k := fresh (dom (votes w)) in ((k, v), with_votes (insert k v) w).

(** [entity.key.delete()]. *)
Definition delete_vote (e : entity Vote) (w : World) : World :=
  with_votes (delete (integer_id e)) w.

(** [Gate.get_by_id(gate_id)]. *)
Definition Gate_get_by_id (gate_id : option Z) (w : World)
    : option (entity Gate.t) :=
  k ← gate_id; g ← gates w !! k; Some (k, g).

(** A query argument: [None] puts no condition on the attribute, a value
    asks for equality. *)
Definition meets {A} (criterion : option A) (x : A) : Prop :=
  match criterion with
  | Some c => x = c
  | None => True
  end.

Global Instance meets_dec `{EqDecision A} (c : option A) (x : A) :
  Decision (meets c x).
Proof. destruct c; simpl; apply _. Defined.

(** [Gate.query(...).fetch()] with an equality filter on the feature id
    and, when given, one on the gate type. *)
Definition Gate_query (feature_id : Z) (gate_type : option Z) (w : World)
    : list (entity Gate.t) :=
  filter (λ e, Gate.feature_id e.2 = feature_id
               ∧ meets gate_type (Gate.gate_type e.2))
         (map_to_list (gates w)).

(** Modelled from the spec: [Vote.get_votes(feature_id=.., gate_id=..,
    set_by=..)].  The store answers the queries "votes by gate id" and
    "votes by feature+gate+setter"; an argument that is left out puts no
    condition on the rows.  The spec fixes no order of the result. *)
Definition Vote_get_votes (feature : option Z) (gate : option Z)
    (setter : option string) (w : World) : list (entity Vote) :=
  filter (λ e, meets feature (feature_id e.2)
               ∧ meets (Some <$> gate) (gate_id e.2)
               ∧ meets setter (set_by e.2))
         (map_to_list (votes w)).

(** ** The vote submission coordinator *)

(** The local variables of a call of [set_vote] that is under way. *)
Record frame := mkFrame {
  fr_feature_id : Z;
  fr_gate_type : option Z;
  fr_new_state : Z;
  fr_set_by_email : string;
  fr_gate_id : option Z;
  fr_gate : option (entity Gate.t);
  fr_now : Z;
  fr_existing_list : list (entity Vote);
  fr_new_vote : option (entity Vote)
}.

Section coordinator.
Context `{RM : review_models} `{CE : core_enums} `{EV : collaborators}.

(** Modelled from the spec: [Vote.is_valid_state]; "newState must be one
    of the defined vote states". *)
Definition is_valid_state (new_state : Z) : bool :=
  bool_decide (new_state ∈
    [NO_RESPONSE; NEEDS_WORK; REVIEW_REQUESTED; REVIEW_STARTED;
     INTERNAL_REVIEW; DENIED; APPROVED; NA; NA_REQUESTED; NA_SELF;
     NA_VERIFIED]).

Definition get_gate_by_type (feature_id gate_type : Z) (w : World)
    : option (entity Gate.t) :=
  head (Gate_query feature_id (Some gate_type) w).

(** Returns the gate as it is in memory afterwards, and whether its
    state changed. *)
Definition update_gate_approval_state (gate : entity Gate.t)
    (votes : list (entity Vote)) : entity Gate.t * bool :=
  let afd := APPROVAL_FIELDS_BY_ID !! Gate.gate_type gate.2 in
  let rule := from_option rule ONE_LGTM afd in
  let new_state := _calc_gate_state (snd <$> votes) rule in
  if decide (new_state = Gate.state gate.2) then (gate, false)
  else
    let g := gate.2 in
    ((integer_id gate,
      Gate.mk (Gate.feature_id g) (Gate.gate_type g) new_state
              (Gate.assignee_emails g) (Gate.timestamps g)), true).

(** [set_vote] talks to the store three times: it reads the gate and
    the voter's existing votes, it writes the vote, and it reads the
    votes of the gate back.  Each of the three parts below runs from
    one of these points to the next; other requests can reach the
    store in between. *)

(** From the entry up to and including the query for existing votes.
    [now] is the value [datetime.datetime.now()] gives.  The left
    alternative is a call that ends here. *)
Definition set_vote_lookup (feature_id : Z) (gate_type : option Z)
    (new_state : Z) (set_by_email : string) (gate_id : option Z)
    (now : Z) (w : World) : (outcome (option Z) + frame) * World :=
  let resolved :=
    match gate_id, gate_type with
    | None, Some gt =>
        match get_gate_by_type feature_id gt w with
        | None => None
        | Some gate =>
            Some (Some gate, Some (integer_id gate),
                  Some (Gate.gate_type gate.2))
        end
    | _, _ => Some (Gate_get_by_id gate_id w, gate_id, gate_type)
    end in
  match resolved with
  | None =>
      (inl (Return None),
       emit (Logged "warning"
         "Gate entity not found for the given feature. Cannot set vote.") w)
  | Some (gate, gate_id, gate_type) =>
      if negb (is_valid_state new_state) then
        (inl (Raise (ValueError "Invalid approval state")), w)
      else
        let existing_list :=
          Vote_get_votes (Some feature_id) gate_id (Some set_by_email) w in
        (inr (mkFrame feature_id gate_type new_state set_by_email gate_id
                      gate now existing_list None), w)
  end.

(** The write: the first existing vote is overwritten, or a new row is
    made and remembered in [new_vote]. *)
Definition set_vote_write (fr : frame) (w : World) : frame * World :=
  match fr_existing_list fr with
  | existing :: _ =>
      let v := existing.2 in
      (fr, put_vote (integer_id existing,
                     mkVote (feature_id v) (gate_id v) (gate_type v)
                            (fr_new_state fr) (fr_now fr) (set_by v)) w)
  | [] =>
      let '(new_vote, w') :=
        put_new_vote (mkVote (fr_feature_id fr) (fr_gate_id fr)
                             (fr_gate_type fr) (fr_new_state fr)
                             (fr_now fr) (fr_set_by_email fr)) w in
      (mkFrame (fr_feature_id fr) (fr_gate_type fr) (fr_new_state fr)
               (fr_set_by_email fr) (fr_gate_id fr) (fr_gate fr) (fr_now fr)
               (fr_existing_list fr) (Some new_vote), w')
  end.

(** The list comprehension that collects the double votes. *)
Definition double_votes (fr : frame) (votes : list (entity Vote))
    : list (entity Vote) :=
  filter (λ v, set_by v.2 = fr_set_by_email fr ∧ set_on v.2 < fr_now fr)
         votes.

(** From the [if gate:] test to the end. *)
Definition set_vote_finish (fr : frame) (w : World)
    : outcome (option Z) * World :=
  match fr_gate fr with
  | Some gate =>
      let votes := Vote_get_votes None (Some (integer_id gate)) None w in
      match fr_new_vote fr, double_votes fr votes with
      | Some new_vote, _ :: _ => (Return None, delete_vote new_vote w)
      | _, _ =>
          let old_gate_state := Gate.state gate.2 in
          let '(gate, state_was_updated) :=
            update_gate_approval_state gate votes in
          let '(gate, slo_was_updated) :=
            record_vote gate votes old_gate_state in
          if state_was_updated || slo_was_updated then
            (Return (Some (Gate.state gate.2)), put_gate gate w)
          else (Return None, w)
      end
  | None => (Return None, w)
  end.

(** A call that nothing interferes with. *)
Definition set_vote (feature_id : Z) (gate_type : option Z) (new_state : Z)
    (set_by_email : string) (gate_id : option Z) (now : Z) (w : World)
    : outcome (option Z) * World :=
  match set_vote_lookup feature_id gate_type new_state set_by_email
                        gate_id now w with
  | (inl result, w) => (result, w)
  | (inr fr, w) =>
      let '(fr, w) := set_vote_write fr w in
      set_vote_finish fr w
  end.
End coordinator.

(** *** Several calls at once

    Calls of [set_vote] made by different server processes, each
    advancing from one request to the store to the next. *)

Record call := mkCall {
  c_feature_id : Z;
  c_gate_type : option Z;
  c_new_state : Z;
  c_set_by_email : string;
  c_gate_id : option Z;
  c_now : Z
}.

Inductive progress :=
  | Entered (c : call)
  | Looked (fr : frame)
  | Written (fr : frame)
  | Finished (result : outcome (option Z)).

Section schedule.
Context `{RM : review_models} `{CE : core_enums} `{EV : collaborators}.

(** One call moves on to its next request. *)
Definition advance (p : progress) (w : World) : progress * World :=
  match p with
  | Entered c =>
      match set_vote_lookup (c_feature_id c) (c_gate_type c) (c_new_state c)
              (c_set_by_email c) (c_gate_id c) (c_now c) w with
      | (inl result, w) => (Finished result, w)
      | (inr fr, w) => (Looked fr, w)
      end
  | Looked fr =>
      let '(fr, w) := set_vote_write fr w in (Written fr, w)
  | Written fr =>
      let '(result, w) := set_vote_finish fr w in
      (Finished result, w)
  | Finished result => (Finished result, w)
  end.

(** [run schedule calls w]: the calls advance in the order the schedule
    names them, by position in [calls]. *)
Definition run (schedule : list nat) (calls : list progress) (w : World)
    : list progress * World :=
  foldl (λ '(calls, w) i,
           match calls !! i with
           | Some p => let '(p, w) := advance p w in (<[i := p]> calls, w)
           | None => (calls, w)
           end)
        (calls, w) schedule.

Definition finished (p : progress) : Prop :=
  match p with Finished _ => True | _ => False end.

(** The rows of one voter on one gate. *)
Definition votes_of (gate : Z) (voter : string) (w : World)
    : list (entity Vote) :=
  Vote_get_votes None (Some gate) (Some voter) w.

Definition one_vote_per_voter (w : World) : Prop :=
  ∀ gate voter, (length (votes_of gate voter w) ≤ 1)%nat.
End schedule.

(** ** Reviewer auto-assignment *)

Section assignment.
Context `{CE : core_enums} `{EV : collaborators}.

Definition set_assignee_emails (gate : entity Gate.t)
    (emails : list string) : entity Gate.t :=
  let g := gate.2 in
  (integer_id gate,
   Gate.mk (Gate.feature_id g) (Gate.gate_type g) (Gate.state g) emails
           (Gate.timestamps g)).

(** The [for] loop: the first other gate of the same team and rule that
    has assignees.  Looking up the definition of a gate of unknown type
    raises [KeyError]. *)
Fixpoint previously_assigned (gate : entity Gate.t) (afd : GateInfo)
    (all_gates : list (entity Gate.t)) : outcome (option (entity Gate.t)) :=
  match all_gates with
  | [] => Return None
  | other_gate :: rest =>
      match APPROVAL_FIELDS_BY_ID !! Gate.gate_type other_gate.2 with
      | None => Raise (KeyError (Gate.gate_type other_gate.2))
      | Some other_afd =>
          if decide (integer_id other_gate ≠ integer_id gate
                     ∧ team_name other_afd = team_name afd
                     ∧ rule other_afd = rule afd
                     ∧ Gate.assignee_emails other_gate.2 ≠ [])
          then Return (Some other_gate)
          else previously_assigned gate afd rest
      end
  end.

(** The [try] statement: [response_json] is bound only if parsing
    succeeds. *)
Definition parse_response (response : Response) (w : World)
    : option json * World :=
  let w := emit (Logged "info" "response.content is:\n%s") w in
  match json_loads (content response) with
  | Some parsed => (Some parsed, w)
  | None => (None, emit (Logged "info" "failed to parse content") w)
  end.

Definition auto_assign_reviewer (gate : entity Gate.t) (w : World)
    : outcome unit * World :=
  match APPROVAL_FIELDS_BY_ID !! Gate.gate_type gate.2 with
  | None => (Raise (KeyError (Gate.gate_type gate.2)), w)
  | Some afd =>
    let all_gates := Gate_query (Gate.feature_id gate.2) None w in
    match previously_assigned gate afd all_gates with
    | Raise e => (Raise e, w)
    | Return (Some other_gate) =>
        (Return (),
         put_gate
           (set_assignee_emails gate (Gate.assignee_emails other_gate.2)) w)
    | Return None =>
      if decide (approvers afd ≠ inl IN_NDB) then (Return (), w)
      else
        let gate_def := get_gate_def (Gate.gate_type gate.2) in
        match rotation_url gate_def with
        | None | Some "" => (Return (), w)
        | Some rotation =>
          let response := requests_get rotation in
          let w := emit (HttpGet rotation) w in
          if decide (status_code response ≠ 200) then
            (Return (),
             emit (Logged "error" "Got response %s")
               (emit (Logged "error" "Could not fetch %r") w))
          else
            let '(response_json, w) := parse_response response w in
            match response_json with
            | None => (Raise (UnboundLocalError "response_json"), w)
            | Some parsed =>
              match json_contains "emails" parsed with
              | Raise e => (Raise e, w)
              | Return false => (Return (), w)
              | Return true =>
                match json_getitem parsed "emails" with
                | Raise e => (Raise e, w)
                | Return emails =>
                    (Return (), put_gate (set_assignee_emails gate emails) w)
                end
              end
            end
        end
    end
  end.
End assignment.

(** ** The approver resolver *)

Section resolver.
Context `{CE : core_enums} `{EV : collaborators}.

(** Modelled from the spec: [rediscache.get] and [rediscache.set].  The
    cache is "key/value with TTL"; an entry is gone once its time is
    up. *)
Definition rediscache_get (key : string) (now : Z) (w : World)
    : option (list string) :=
  match cache w !! key with
  | Some (expires, value) => if decide (now < expires) then Some value else None
  | None => None
  end.

Definition rediscache_set (key : string) (value : list string) (time : Z)
    (now : Z) (w : World) : World :=
  with_cache (insert key (now + time, value)) w.

(** Modelled from the spec: [OwnersFile.get_raw_owner_file] and
    [add_owner_file]; the stored copy of the document at a URL, and
    "store the new content as the fresh cache". *)
Definition get_raw_owner_file (url : string) (w : World) : option OwnersFile :=
  owners_files w !! url.

Definition add_owner_file (f : OwnersFile) (w : World) : World :=
  with_owners_files (insert (url f) f) w.

Definition fetch_owners (url : string) (now : Z) (w : World)
    : outcome (list string) * World :=
  let owners_file := get_raw_owner_file url w in
  match owners_file with
  | Some f =>
      if is_fresh now f then
        (decode_raw_owner_content (raw_content f),
         emit (Logged "info" "Using fresh owners_file") w)
      else
        let response := requests_get url in
        let w := emit (HttpGet url) w in
        let '(content, w) :=
          if decide (status_code response = 200) then (content response, w)
          else
            (raw_content f,
             emit (Logged "info" "Marking stale owners_file as fresh")
               (emit (Logged "error" "Got response %s")
                  (emit (Logged "error" "Could not fetch %r") w))) in
        (decode_raw_owner_content content,
         add_owner_file (mkOwnersFile url content now) w)
  | None =>
      let response := requests_get url in
      let w := emit (HttpGet url) w in
      if decide (status_code response = 200) then
        (decode_raw_owner_content (content response),
         add_owner_file (mkOwnersFile url (content response) now) w)
      else
        (Return [],
         emit (Logged "info" "No stored owners_file available.  Using [].")
           (emit (Logged "error" "Got response %s")
              (emit (Logged "error" "Could not fetch %r") w)))
  end.

Definition cache_key (gate_type : Z) : string :=
  APPROVERS_CACHE_KEY +:+ "|" +:+ pretty gate_type.

(** What [get_approvers] does past the cache test. *)
Definition resolve_approvers (gate_type : Z) (afd : GateInfo) (now : Z)
    (w : World) : outcome (list string) * World :=
  let '(owners, w) :=
    match approvers afd with
    | inl source =>
        if decide (source = IN_NDB)
        then (Return (gd_approvers (get_gate_def gate_type)), w)
        else fetch_owners source now w
    | inr emails => (Return emails, w)
    end in
  match owners with
  | Return owners =>
      (Return owners,
       rediscache_set (cache_key gate_type) owners CACHE_EXPIRATION now w)
  | Raise e => (Raise e, w)
  end.

Definition get_approvers (gate_type : Z) (now : Z) (w : World)
    : outcome (list string) * World :=
  match APPROVAL_FIELDS_BY_ID !! gate_type with
  | None => (Return [], w)
  | Some afd =>
      match rediscache_get (cache_key gate_type) now w with
      | Some (email :: emails) => (Return (email :: emails), w)
      | _ => resolve_approvers gate_type afd now w
      end
  end.
End resolver.

(** ** Sample values

    One assignment of the codes and one choice of the collaborators, on
    which the definitions can be run. *)
#[local] Program Instance sample_models : review_models := {|
  PREPARING := 0; NA := 1; REVIEW_REQUESTED := 2; REVIEW_STARTED := 3;
  NEEDS_WORK := 4; APPROVED := 5; DENIED := 6; NO_RESPONSE := 7;
  INTERNAL_REVIEW := 8; NA_REQUESTED := 9; NA_SELF := 10; NA_VERIFIED := 11
|}.
Next Obligation. compute_done. Qed.

#[local] Instance sample_enums : core_enums := {|
  GATE_API_PROTOTYPE := 1; GATE_API_ORIGIN_TRIAL := 2;
  GATE_API_EXTEND_ORIGIN_TRIAL := 3; GATE_API_SHIP := 4; GATE_API_PLAN := 5;
  GATE_PRIVACY_ORIGIN_TRIAL := 32; GATE_PRIVACY_SHIP := 34;
  GATE_SECURITY_ORIGIN_TRIAL := 42; GATE_SECURITY_SHIP := 44;
  GATE_ENTERPRISE_SHIP := 54; GATE_ENTERPRISE_PLAN := 55;
  GATE_DEBUGGABILITY_ORIGIN_TRIAL := 62; GATE_DEBUGGABILITY_SHIP := 64;
  GATE_DEBUGGABILITY_PLAN := 65; GATE_TESTING_SHIP := 74;
  GATE_TESTING_PLAN := 75
|}.

Definition vote_at (s t : Z) (who : string) : Vote :=
  mkVote 1 (Some 1) (Some 1) s t who.

(** Collaborators for the examples: an SLO recorder that has nothing to
    record, a gate definition with a rotation URL, no stored copy that
    counts as fresh, a decoder that finds no address and a parser that
    rejects every body.  In [sign_in_page] every endpoint answers 200
    with a page that is not JSON; in [outage] every endpoint is down. *)
Definition sign_in_page : collaborators := {|
  record_vote gate votes old_gate_state := (gate, false);
  get_gate_def gate_type :=
    mkGateDef [] (Some "https://rotation.example.org/oncall");
  requests_get target := mkResponse 200 "<html>Sign in</html>";
  is_fresh now f := false;
  decode_raw_owner_content raw := Return [];
  json := unit;
  json_loads body := None;
  json_contains key parsed := Return false;
  json_getitem parsed key := Raise (KeyError 0)
|}.

Definition outage : collaborators := {|
  record_vote gate votes old_gate_state := (gate, false);
  get_gate_def gate_type :=
    mkGateDef [] (Some "https://rotation.example.org/oncall");
  requests_get target := mkResponse 503 "";
  is_fresh now f := false;
  decode_raw_owner_content raw := Return [];
  json := unit;
  json_loads body := None;
  json_contains key parsed := Return false;
  json_getitem parsed key := Raise (KeyError 0)
|}.

Definition empty_world : World := mkWorld ∅ ∅ ∅ ∅ [].

(** A store with one gate, of id 7, for feature 1: the ship gate of the
    API owners, being prepared. *)
Definition one_gate_world : World :=
  mkWorld ∅ {[ 7 := Gate.mk 1 GATE_API_SHIP PREPARING [] [] ]} ∅ ∅ [].

(** Two submissions by one voter for gate 7, the first taking its
    timestamp before the second. *)
Definition voter : string := "voter@example.org".
Definition first_call : call := mkCall 1 None APPROVED voter (Some 7) 1.
Definition second_call : call := mkCall 1 None NEEDS_WORK voter (Some 7) 2.

(** The second call runs from start to end while the first one is
    between its query for existing votes and its write. *)
Definition overtaken : list progress * World :=
  run (EV := outage) [0; 1; 1; 1; 0; 0]%nat
      [Entered first_call; Entered second_call] one_gate_world.

(** Both calls have written before either reads the votes back, and the
    first has finished. *)
Definition both_written : list progress * World :=
  run (EV := outage) [0; 1; 0; 1; 0]%nat
      [Entered first_call; Entered second_call] one_gate_world.

(** A privacy ship gate of feature 1, with id 3 and no assignee, in a
    store that holds nothing else. *)
Definition privacy_gate : entity Gate.t :=
  (3, Gate.mk 1 GATE_PRIVACY_SHIP PREPARING [] []).
Definition privacy_world : World :=
  mkWorld ∅ {[ 3 := privacy_gate.2 ]} ∅ ∅ [].

(** ** The words of the specification

    The quantities the specification talks about, written with [filter]
    and [length] on the vote list, independently of how the code
    computes them. *)
Section spec_words.
Context `{RM : review_models} `{CE : core_enums}.

(** The votes that remain once [NO_RESPONSE] votes are discarded. *)
Definition counted (votes : list Vote) : list Vote :=
  filter (λ v, state v ≠ NO_RESPONSE) votes.

(** How many of [votes] are in state [s]. *)
Definition count_state (s : Z) (votes : list Vote) : nat :=
  length (filter (λ v, state v = s) votes).

Definition lgtmCount (votes : list Vote) : nat :=
  (count_state APPROVED (counted votes) + count_state NA (counted votes))%nat.

(** The self-certification path decides the state. *)
Definition na_self_applies (votes : list Vote) (rule : string) : Prop :=
  count_state NA_SELF (counted votes) = 1%nat ∧ rule = ONE_LGTM ∧
  (length (counted votes) = 1%nat
   ∨ (1 ≤ count_state NA_VERIFIED (counted votes))%nat).

Definition quorum_met (votes : list Vote) (rule : string) : Prop :=
  (rule = ONE_LGTM ∧ (1 ≤ lgtmCount votes)%nat)
  ∨ (rule = THREE_LGTM ∧ (3 ≤ lgtmCount votes)%nat).

Definition in_review_set (v : Vote) : Prop := state v ∈ review_states.

Global Instance in_review_set_dec (v : Vote) : Decision (in_review_set v).
Proof. unfold in_review_set. apply _. Defined.

(** The call looks its gate up by feature and gate type and finds none:
    the case in which [set_vote] leaves before it tests the new state. *)
Definition gate_lookup_fails (feature_id : Z) (gate_type gate_id : option Z)
    (w : World) : Prop :=
  gate_id = None
  ∧ ∃ gt, gate_type = Some gt ∧ get_gate_by_type feature_id gt w = None.
End spec_words.

(** ** Reasoning with the state codes *)

(** All the disequalities between state codes, unpacked from
    [states_distinct]. *)
Ltac states_facts :=
  let Hd := fresh "Hd" in
  pose proof states_distinct as Hd;
  rewrite !NoDup_cons, !not_elem_of_cons in Hd;
  destruct_and!.

(** Closes a goal that needs two different codes to be equal. *)
Ltac states_contra := exfalso; states_facts; intuition congruence.

(** ** The rest of the module *)

(** *** The OWNERS parser

    A character of a decoded document is a code point below 256, so that
    a document is a [string]. *)

(** [c.isspace()], which is what [str.strip()] removes: the code points
    9 to 13, 28 to 32, 133 and 160. *)
Definition isspace (c : Ascii.ascii) : bool :=
  bool_decide (Ascii.N_of_ascii c ∈
    [9; 10; 11; 12; 13; 28; 29; 30; 31; 32; 133; 160]%N).

(** [c in s]. *)
Fixpoint contains (c : Ascii.ascii) (s : string) : bool :=
  match s with
  | EmptyString => false
  | String a rest => if decide (a = c) then true else contains c rest
  end.

(** [s[:s.index(c)]], for a string that contains [c]; a string without
    [c] comes back whole. *)
Fixpoint before (c : Ascii.ascii) (s : string) : string :=
  match s with
  | EmptyString => EmptyString
  | String a rest => if decide (a = c) then EmptyString
                     else String a (before c rest)
  end.

(** [s.split(c)]: the pieces between the occurrences of [c]; there is
    always at least one piece. *)
Fixpoint split (c : Ascii.ascii) (s : string) : list string :=
  match s with
  | EmptyString => [EmptyString]
  | String a rest =>
      if decide (a = c) then EmptyString :: split c rest
      else match split c rest with
           | piece :: pieces => String a piece :: pieces
           | [] => [String a EmptyString]
           end
  end.

Fixpoint lstrip (s : string) : string :=
  match s with
  | EmptyString => EmptyString
  | String a rest => if isspace a then lstrip rest else s
  end.

Fixpoint rstrip (s : string) : string :=
  match s with
  | EmptyString => EmptyString
  | String a rest =>
      match rstrip rest with
      | EmptyString => if isspace a then EmptyString else String a EmptyString
      | kept => String a kept
      end
  end.

(** [s.strip()]. *)
Definition strip (s : string) : string := rstrip (lstrip s).

(** The body of the [for] loop of [decode_raw_owner_content]: the owner
    that one line contributes, if any. *)
Definition owner_of_line (line : string) : option string :=
  let line := if contains "#"%char line then before "#"%char line else line in
  let line := strip line in
  if contains "@"%char line && contains "."%char line then Some line else None.

(** [decode_raw_owner_content] from the decoded text on. *)
Definition owners_of_text (decoded : string) : list string :=
  omap owner_of_line (split "010"%char decoded).

(** [decode_raw_owner_content], given what
    [base64.b64decode(raw_content).decode()] does: it yields the text or
    raises. *)
Definition decode_raw_owner_content_with
    (b64decode_utf8 : string → outcome string) (raw_content : string)
    : outcome (list string) :=
  match b64decode_utf8 raw_content with
  | Return decoded => Return (owners_of_text decoded)
  | Raise e => Raise e
  end.

(** [sep.join(pieces)]. *)
Fixpoint join (sep : string) (pieces : list string) : string :=
  match pieces with
  | [] => EmptyString
  | [piece] => piece
  | piece :: rest => piece +:+ sep +:+ join sep rest
  end.

(** *** The catalog as a list, and who may approve what *)

(** The keys of a dict built by inserting [ks] in turn, in the order in
    which iterating the dict gives them: each key at the place of its
    first insertion. *)
Fixpoint dict_keys (ks : list Z) : list Z :=
  match ks with
  | [] => []
  | k :: rest => k :: filter (λ k', k' ≠ k) (dict_keys rest)
  end.

Section approvable.
Context `{CE : core_enums} `{EV : collaborators}.

(** The list the dict comprehension of [APPROVAL_FIELDS_BY_ID] runs
    over. *)
Definition approval_field_defs : list GateInfo :=
  [PrototypeApproval; ExperimentApproval; ExtendExperimentApproval;
   ShipApproval; PlanApproval;
   PrivacyOriginTrialApproval; PrivacyShipApproval;
   SecurityOriginTrialApproval; SecurityShipApproval;
   EnterpriseShipApproval; EnterprisePlanApproval;
   DebuggabilityOriginTrialApproval; DebuggabilityShipApproval;
   DebuggabilityPlanApproval;
   TestingShipApproval; TestingPlanApproval].

(** [permissions.can_admin_site] and [user.email()], on whatever type
    the users have. *)
Variable User : Type.
Variable can_admin_site : User → bool.
Variable user_email : User → string.

(** The set comprehension of [fields_approvable_by]: [get_approvers] is
    called for one gate type after the other, the [i]-th call at the time
    [clock i]; an exception ends the loop. *)
Fixpoint approvable_among (email : string) (gate_types : list Z)
    (clock : nat → Z) (i : nat) (w : World) : outcome (gset Z) * World :=
  match gate_types with
  | [] => (Return ∅, w)
  | gate_type :: rest =>
      match get_approvers gate_type (clock i) w with
      | (Raise e, w) => (Raise e, w)
      | (Return owners, w) =>
          match approvable_among email rest clock (S i) w with
          | (Raise e, w) => (Raise e, w)
          | (Return ids, w) =>
              (Return (if decide (email ∈ owners) then {[gate_type]} ∪ ids
                       else ids), w)
          end
      end
  end.

Definition fields_approvable_by (user : User) (clock : nat → Z) (w : World)
    : outcome (gset Z) * World :=
  if can_admin_site user then (Return (dom APPROVAL_FIELDS_BY_ID), w)
  else
    approvable_among (user_email user)
      (dict_keys (gi_gate_type <$> approval_field_defs)) clock 0 w.
End approvable.

(** *** Words for the properties of [auto_assign_reviewer] *)

(** The test that the [for] loop of [auto_assign_reviewer] makes on one
    other gate of the feature. *)
Definition same_review_team (gate : entity Gate.t) (afd : GateInfo)
    (other_gate : entity Gate.t) (other_afd : GateInfo) : Prop :=
  integer_id other_gate ≠ integer_id gate
  ∧ team_name other_afd = team_name afd
  ∧ rule other_afd = rule afd
  ∧ Gate.assignee_emails other_gate.2 ≠ [].

(** *** More sample values *)

(** Collaborators whose endpoints answer 200: the rotation body parses to
    one address, an OWNERS copy counts as fresh for an hour, and the
    decoder is the parser above applied to the content as it is. *)
Definition serving : collaborators := {|
  record_vote gate votes old_gate_state := (gate, false);
  get_gate_def gate_type :=
    mkGateDef ["privacy@example.org"]
              (Some "https://rotation.example.org/oncall");
  requests_get target := mkResponse 200 "owner@example.org # on call";
  is_fresh now f := bool_decide (now < created_on f + 3600);
  decode_raw_owner_content raw := Return (owners_of_text raw);
  json := list string;
  json_loads body := Some ["oncall@example.org"];
  json_contains key parsed := Return true;
  json_getitem parsed key := Return parsed
|}.

(** The store after the first sample call has run alone: gate 7 and the
    vote of the voter on it. *)
Definition one_vote_world : World :=
  (set_vote (EV := outage) 1 None APPROVED voter (Some 7) 1 one_gate_world).2.

(** Two privacy gates of feature 1: the origin trial gate, of id 2, has
    an assignee; the ship gate, of id 3, has none. *)
Definition two_privacy_gates_world : World :=
  mkWorld ∅
    {[ 2 := Gate.mk 1 GATE_PRIVACY_ORIGIN_TRIAL APPROVED
                    ["assigned@example.org"] [];
       3 := privacy_gate.2 ]} ∅ ∅ [].

(** * Properties *)

(** ** Library functions *)

Lemma Counter_foldl (xs : list Z) (c : gmap Z nat) (k : Z) :
  foldl (λ c x, <[x := S (c !!! x)]> c) c xs !!! k
  = (c !!! k + length (filter (λ x, x = k) xs))%nat.
Proof.
  revert c. induction xs as [|x xs IH]; intros c; simpl.
  - lia.
  - rewrite IH. rewrite filter_cons. destruct (decide (x = k)) as [->|Hne].
    + rewrite lookup_total_insert_eq. simpl. lia.
    + rewrite lookup_total_insert_ne by done. lia.
Qed.

Lemma Counter_lookup (xs : list Z) (k : Z) :
  Counter xs !!! k = length (filter (λ x, x = k) xs).
Proof.
  unfold Counter. rewrite Counter_foldl, lookup_total_empty. reflexivity.
Qed.

Lemma Counter_states (votes : list Vote) (k : Z) :
  Counter (state <$> votes) !!! k = length (filter (λ v, state v = k) votes).
Proof.
  rewrite Counter_lookup.
  induction votes as [|v votes IH]; [done|].
  rewrite fmap_cons, !filter_cons.
  repeat case_decide; simpl; congruence.
Qed.

Section sorted_reverse.
Context {A : Type} (key : A → Z).

Lemma insert_desc_perm x l : insert_desc key x l ≡ₚ x :: l.
Proof.
  induction l as [|y l IH]; simpl; [done|].
  case_decide; [|done]. rewrite IH. apply Permutation_swap.
Qed.

Lemma sorted_reverse_perm l : sorted_reverse key l ≡ₚ l.
Proof.
  induction l as [|x l IH]; simpl; [done|].
  rewrite insert_desc_perm. by f_equiv.
Qed.

Lemma insert_desc_sorted x l :
  StronglySorted (key_ge key) l → StronglySorted (key_ge key) (insert_desc key x l).
Proof.
  induction 1 as [|y l Hs IH Hall]; simpl.
  - repeat constructor.
  - case_decide as Hlt.
    + constructor; [done|]. rewrite insert_desc_perm.
      constructor; [unfold key_ge; lia | done].
    + constructor; [by constructor|].
      constructor; [unfold key_ge; lia|].
      eapply Forall_impl; [exact Hall|]. unfold key_ge. intros; lia.
Qed.

Lemma sorted_reverse_sorted l : StronglySorted (key_ge key) (sorted_reverse key l).
Proof.
  induction l as [|x l IH]; simpl; [constructor|].
  by apply insert_desc_sorted.
Qed.

(** The sort is stable: the items of any one key keep their order. *)
Lemma insert_desc_same_key k x l :
  filter (λ y, key y = k) (insert_desc key x l)
  = filter (λ y, key y = k) (x :: l).
Proof.
  induction l as [|y l IH]; simpl; [done|].
  case_decide as Hlt; [|done].
  rewrite filter_cons, IH, !filter_cons.
  repeat case_decide; try done; lia.
Qed.

Lemma sorted_reverse_stable k l :
  filter (λ y, key y = k) (sorted_reverse key l) = filter (λ y, key y = k) l.
Proof.
  induction l as [|x l IH]; simpl; [done|].
  rewrite insert_desc_same_key, !filter_cons, IH. done.
Qed.

(** Searching a list sorted by decreasing key finds an item of largest
    key among those that pass the test. *)
Lemma find_sorted_max (p : A → bool) l w :
  StronglySorted (key_ge key) l → List.find p l = Some w →
  w ∈ l ∧ p w = true ∧ ∀ u, u ∈ l → p u = true → key u ≤ key w.
Proof.
  induction 1 as [|y l Hs IH Hall]; simpl; [done|].
  destruct (p y) eqn:Hy.
  - intros [= <-]. split_and!; [left | done |].
    intros u [->|Hu]%elem_of_cons _; [lia|].
    rewrite Forall_forall in Hall. by apply Hall.
  - intros Hf. destruct (IH Hf) as (Hin & Hp & Hmax).
    split_and!; [by right | done |].
    intros u [->|Hu]%elem_of_cons Hpu; [congruence | by apply Hmax].
Qed.

Lemma find_none_all (p : A → bool) (l : list A) :
  List.find p l = None → ∀ u, u ∈ l → p u = false.
Proof.
  induction l as [|y l IH]; simpl; [by intros _ u ?%elem_of_nil|].
  destruct (p y) eqn:Hy; [done|].
  intros Hf u [->|Hu]%elem_of_cons; [done | by apply IH].
Qed.
End sorted_reverse.

(** ** The aggregator, step by step *)

Section aggregator_steps.
Context `{RM : review_models}.

Lemma na_self_case_none votes rule :
  ¬ na_self_applies votes rule →
  na_self_case (counted votes) (Counter (state <$> counted votes)) rule = None.
Proof.
  unfold na_self_applies, na_self_case, count_state. intros Hn.
  rewrite !Counter_states. repeat case_decide; try done; tauto.
Qed.

Lemma calc_after_na_self votes rule :
  ¬ na_self_applies votes rule →
  _calc_gate_state votes rule =
    if decide (quorum_met votes rule) then
      if decide (0 < count_state NA (counted votes))%nat then NA else APPROVED
    else
      match most_recent_review (counted votes) with
      | Some s => s
      | None =>
          if decide (rule = THREE_LGTM ∧ 1 ≤ lgtmCount votes)%nat
          then REVIEW_REQUESTED else PREPARING
      end.
Proof.
  intros Hn. unfold _calc_gate_state. fold (counted votes).
  rewrite (na_self_case_none _ _ Hn).
  unfold quorum_met, lgtmCount, count_state. rewrite !Counter_states.
  reflexivity.
Qed.

Lemma count_state_pos s votes :
  (0 < count_state s votes)%nat ↔ ∃ v, v ∈ votes ∧ state v = s.
Proof.
  unfold count_state. split.
  - intros Hpos. destruct (filter _ votes) as [|v l] eqn:Hf; simpl in Hpos; [lia|].
    exists v. assert (Hv : v ∈ filter (λ v, state v = s) votes)
      by (rewrite Hf; left).
    apply list_elem_of_filter in Hv as [Hs Hv]. by split.
  - intros (v & Hin & Hs).
    assert (Hv : v ∈ filter (λ v, state v = s) votes)
      by (apply list_elem_of_filter; done).
    destruct (filter _ votes); [by apply elem_of_nil in Hv | simpl; lia].
Qed.

Lemma most_recent_review_some votes s :
  most_recent_review votes = Some s →
  ∃ w, w ∈ votes ∧ in_review_set w ∧ s = state w ∧
       ∀ u, u ∈ votes → in_review_set u → set_on u ≤ set_on w.
Proof.
  unfold most_recent_review. intros Hs.
  destruct (List.find _ _) as [w|] eqn:Hf; simplify_eq/=.
  apply find_sorted_max with (key := set_on) in Hf
    as (Hin & Hp & Hmax); [|apply sorted_reverse_sorted].
  exists w. rewrite sorted_reverse_perm in Hin.
  split_and!; [done | by apply bool_decide_eq_true in Hp | done |].
  intros u Hu Hr. apply Hmax.
  - by rewrite sorted_reverse_perm.
  - by apply bool_decide_eq_true.
Qed.

Lemma most_recent_review_none votes :
  most_recent_review votes = None ↔ ∀ u, u ∈ votes → ¬ in_review_set u.
Proof.
  unfold most_recent_review. split.
  - intros Hs u Hu. destruct (List.find _ _) eqn:Hf; [done|].
    eapply find_none_all in Hf; [|by rewrite sorted_reverse_perm].
    by apply bool_decide_eq_false in Hf.
  - intros Hall. destruct (List.find _ _) as [w|] eqn:Hf; [|done].
    apply find_sorted_max with (key := set_on) in Hf
      as (Hin & Hp & _); [|apply sorted_reverse_sorted].
    rewrite sorted_reverse_perm in Hin.
    apply bool_decide_eq_true in Hp. by destruct (Hall w Hin).
Qed.
End aggregator_steps.

(** ** Counting votes *)

Lemma rules_differ : THREE_LGTM ≠ ONE_LGTM.
Proof. discriminate. Qed.

Section count_lemmas.
Context `{RM : review_models}.

Lemma count_state_two a b votes :
  a ≠ b → (count_state a votes + count_state b votes ≤ length votes)%nat.
Proof.
  intros Hab. unfold count_state.
  induction votes as [|v votes IH]; simpl; [lia|].
  rewrite !filter_cons. repeat case_decide; simpl; try lia; congruence.
Qed.

Lemma counted_idemp votes : counted (counted votes) = counted votes.
Proof.
  unfold counted. rewrite list_filter_filter.
  apply list_filter_iff. tauto.
Qed.

(** The quantities of the specification depend on the states only. *)
Lemma same_states votes votes' :
  state <$> votes' = state <$> votes →
  length (counted votes') = length (counted votes)
  ∧ ∀ s, count_state s (counted votes') = count_state s (counted votes).
Proof.
  revert votes'. unfold counted, count_state.
  induction votes as [|v votes IH]; intros [|v' votes']; try done.
  rewrite !fmap_cons. intros [= Hs Hrest].
  destruct (IH _ Hrest) as [IHl IHc].
  rewrite !filter_cons, Hs. case_decide; [|done].
  simpl. split; [by rewrite IHl|]. intros s.
  rewrite !filter_cons, Hs. case_decide; simpl; by rewrite IHc.
Qed.
End count_lemmas.

(** ** The claims about [_calc_gate_state] *)

Section aggregator_claims.
Context `{RM : review_models}.

(** C1.  When the self-certification path does not decide and the count
    of APPROVED and NA votes meets the quorum of the rule (one for
    ONE_LGTM, three for THREE_LGTM), [_calc_gate_state] returns NA if
    some vote that remains after discarding NO_RESPONSE is NA, and
    APPROVED if none is.  The result depends on nothing but the states
    of the votes: any list with the same states, whatever its timestamps,
    gets the same result. *)
Theorem calc_gate_state_quorum (votes : list Vote) (rule : string) :
  ¬ na_self_applies votes rule →
  quorum_met votes rule →
  ((∃ v, v ∈ counted votes ∧ state v = NA) →
     _calc_gate_state votes rule = NA)
  ∧ ((∀ v, v ∈ counted votes → state v ≠ NA) →
     _calc_gate_state votes rule = APPROVED)
  ∧ (∀ votes', state <$> votes' = state <$> votes →
     _calc_gate_state votes' rule = _calc_gate_state votes rule).
Proof.
  intros Hn Hq.
  assert (Hcalc : ∀ vs, ¬ na_self_applies vs rule → quorum_met vs rule →
    _calc_gate_state vs rule =
      if decide (0 < count_state NA (counted vs))%nat then NA else APPROVED).
  { intros vs Hn' Hq'. rewrite calc_after_na_self by done.
    by rewrite decide_True. }
  split_and!.
  - intros Hna. rewrite Hcalc by done.
    rewrite decide_True; [done|]. by apply count_state_pos.
  - intros Hna. rewrite Hcalc by done.
    rewrite decide_False; [done|]. rewrite count_state_pos.
    intros (v & Hv & Hs). by apply (Hna v).
  - intros votes' Hst. destruct (same_states _ _ Hst) as [Hlen Hcnt].
    rewrite !Hcalc; try done.
    + by rewrite Hcnt.
    + unfold na_self_applies in *. by rewrite !Hcnt, Hlen.
    + unfold quorum_met, lgtmCount in *. by rewrite !Hcnt.
Qed.

(** C5.  Under ONE_LGTM: a single remaining vote that is NA_SELF gives
    NA_SELF; exactly one NA_SELF vote together with at least one
    NA_VERIFIED vote gives NA_VERIFIED.  Both hold whatever the count of
    approvals is: with an APPROVED vote added, which meets the quorum,
    the result is still NA_VERIFIED. *)
Theorem calc_gate_state_na_self (votes : list Vote) :
  (∀ v, counted votes = [v] → state v = NA_SELF →
     _calc_gate_state votes ONE_LGTM = NA_SELF)
  ∧ (count_state NA_SELF (counted votes) = 1%nat →
     (1 ≤ count_state NA_VERIFIED (counted votes))%nat →
     _calc_gate_state votes ONE_LGTM = NA_VERIFIED)
  ∧ (∀ a b c, state a = NA_SELF → state b = NA_VERIFIED →
     state c = APPROVED →
     quorum_met [a; b; c] ONE_LGTM
     ∧ _calc_gate_state [a; b; c] ONE_LGTM = NA_VERIFIED).
Proof.
  assert (Hver : ∀ vs, count_state NA_SELF (counted vs) = 1%nat →
     (1 ≤ count_state NA_VERIFIED (counted vs))%nat →
     _calc_gate_state vs ONE_LGTM = NA_VERIFIED).
  { intros vs H1 H2. unfold _calc_gate_state, na_self_case.
    fold (counted vs). rewrite !Counter_states.
    fold (count_state NA_SELF (counted vs)).
    fold (count_state NA_VERIFIED (counted vs)).
    rewrite decide_True by done.
    assert (NA_SELF ≠ NA_VERIFIED) as Hne by (intros ?; states_contra).
    pose proof (count_state_two _ _ (counted vs) Hne).
    rewrite decide_False by lia. by rewrite decide_True. }
  split_and!.
  - intros v Hc Hv. unfold _calc_gate_state, na_self_case.
    fold (counted votes). rewrite !Counter_states, Hc.
    rewrite decide_True; [by rewrite decide_True|].
    split; [|done]. by rewrite filter_cons_True.
  - apply Hver.
  - intros a b c Ha Hb Hc.
    assert (Hcounted : counted [a; b; c] = [a; b; c]).
    { unfold counted. rewrite !filter_cons, Ha, Hb, Hc.
      repeat case_decide; try done; states_contra. }
    split.
    + left. split; [done|]. unfold lgtmCount, count_state.
      rewrite Hcounted, !filter_cons, Ha, Hb, Hc.
      repeat case_decide; simpl; try lia; states_contra.
    + apply Hver; unfold count_state;
        rewrite Hcounted, !filter_cons, Ha, Hb, Hc;
        repeat case_decide; simpl; try lia; states_contra.
Qed.

(** C9.  Removing the NO_RESPONSE votes from the list beforehand does
    not change the result of [_calc_gate_state], for any rule. *)
Theorem calc_gate_state_no_response (votes : list Vote) (rule : string) :
  _calc_gate_state (filter (λ v, state v ≠ NO_RESPONSE) votes) rule
  = _calc_gate_state votes rule.
Proof.
  unfold _calc_gate_state. fold (counted votes).
  fold (counted (counted votes)). by rewrite counted_idemp.
Qed.

(** C7.  When neither the self-certification path nor the quorum
    decides and some remaining vote is in the set NEEDS_WORK,
    REVIEW_STARTED, REVIEW_REQUESTED, DENIED, INTERNAL_REVIEW,
    NA_REQUESTED, the result is the state of a vote of that set that no
    other vote of the set is more recent than; a vote of the set that is
    strictly more recent than every other one of the set is therefore
    the one whose state is returned.  In particular DENIED at t1 and
    REVIEW_REQUESTED at t2 > t1 give REVIEW_REQUESTED. *)
Theorem calc_gate_state_most_recent :
  (∀ votes rule,
     ¬ na_self_applies votes rule → ¬ quorum_met votes rule →
     (∃ v, v ∈ counted votes ∧ in_review_set v) →
     (∃ w, w ∈ counted votes ∧ in_review_set w
           ∧ _calc_gate_state votes rule = state w
           ∧ ∀ u, u ∈ counted votes → in_review_set u →
                  set_on u ≤ set_on w)
     ∧ (∀ i v, counted votes !! i = Some v → in_review_set v →
          (∀ j u, j ≠ i → counted votes !! j = Some u →
                  in_review_set u → set_on u < set_on v) →
          _calc_gate_state votes rule = state v))
  ∧ (∀ d r rule, state d = DENIED → state r = REVIEW_REQUESTED →
       set_on d < set_on r →
       _calc_gate_state [d; r] rule = REVIEW_REQUESTED).
Proof.
  assert (Hgen : ∀ votes rule,
     ¬ na_self_applies votes rule → ¬ quorum_met votes rule →
     (∃ v, v ∈ counted votes ∧ in_review_set v) →
     (∃ w, w ∈ counted votes ∧ in_review_set w
           ∧ _calc_gate_state votes rule = state w
           ∧ ∀ u, u ∈ counted votes → in_review_set u →
                  set_on u ≤ set_on w)
     ∧ (∀ i v, counted votes !! i = Some v → in_review_set v →
          (∀ j u, j ≠ i → counted votes !! j = Some u →
                  in_review_set u → set_on u < set_on v) →
          _calc_gate_state votes rule = state v)).
  { intros votes rule Hn Hq (v0 & Hv0 & Hr0).
    assert (Hmax : ∃ w, w ∈ counted votes ∧ in_review_set w
           ∧ _calc_gate_state votes rule = state w
           ∧ ∀ u, u ∈ counted votes → in_review_set u →
                  set_on u ≤ set_on w).
    { rewrite calc_after_na_self, decide_False by done.
      destruct (most_recent_review (counted votes)) as [s|] eqn:Hm.
      - apply most_recent_review_some in Hm as (w & ? & ? & -> & ?).
        by exists w.
      - rewrite most_recent_review_none in Hm. by destruct (Hm v0). }
    split; [done|].
    intros i v Hi Hv Hstrict. destruct Hmax as (w & Hw & Hrw & -> & Hmax).
    apply list_elem_of_lookup in Hw as [j Hj].
    destruct (decide (j = i)) as [->|Hne]; [congruence|].
    pose proof (Hstrict j w Hne Hj Hrw).
    assert (set_on v ≤ set_on w)
      by (apply Hmax; [by eapply list_elem_of_lookup_2|done]).
    lia. }
  split; [exact Hgen|].
  intros d r rule Hd Hr Hlt.
  assert (Hcounted : counted [d; r] = [d; r]).
  { unfold counted. rewrite !filter_cons, Hd, Hr.
    repeat case_decide; try done; states_contra. }
  assert (Hrev : in_review_set r).
  { unfold in_review_set, review_states. rewrite Hr. repeat constructor. }
  assert (Hdev : in_review_set d).
  { unfold in_review_set, review_states. rewrite Hd. repeat constructor. }
  assert (Hcount : ∀ s, s ≠ DENIED → s ≠ REVIEW_REQUESTED →
            count_state s (counted [d; r]) = 0%nat).
  { intros s ? ?. unfold count_state.
    rewrite Hcounted, !filter_cons, Hd, Hr.
    repeat case_decide; try done; congruence. }
  rewrite <- Hr. eapply (Hgen [d; r] rule).
  - unfold na_self_applies. rewrite Hcount; [lia| |]; intros ?; states_contra.
  - unfold quorum_met, lgtmCount.
    rewrite !Hcount; [lia| | | |]; intros ?; states_contra.
  - exists r. split; [|done]. rewrite Hcounted. repeat constructor.
  - rewrite Hcounted. by instantiate (1 := 1%nat).
  - done.
  - rewrite Hcounted. intros [|[|j]] u Hj Hu; simplify_eq/=. done.
Qed.

(** C8.  Under THREE_LGTM, one or two approvals and no vote of the
    review set give REVIEW_REQUESTED.  When no branch decides, the
    empty vote list included, the result is PREPARING.  In particular
    two APPROVED votes give REVIEW_REQUESTED under THREE_LGTM and a
    third APPROVED vote gives APPROVED. *)
Theorem calc_gate_state_partial :
  (∀ votes, (1 ≤ lgtmCount votes < 3)%nat →
     (∀ v, v ∈ counted votes → ¬ in_review_set v) →
     _calc_gate_state votes THREE_LGTM = REVIEW_REQUESTED)
  ∧ (∀ votes rule,
       ¬ na_self_applies votes rule → ¬ quorum_met votes rule →
       (∀ v, v ∈ counted votes → ¬ in_review_set v) →
       ¬ (rule = THREE_LGTM ∧ (1 ≤ lgtmCount votes)%nat) →
       _calc_gate_state votes rule = PREPARING)
  ∧ (∀ rule, _calc_gate_state [] rule = PREPARING)
  ∧ (∀ a b, state a = APPROVED → state b = APPROVED →
       _calc_gate_state [a; b] THREE_LGTM = REVIEW_REQUESTED
       ∧ ∀ c, state c = APPROVED →
           _calc_gate_state [a; b; c] THREE_LGTM = APPROVED).
Proof.
  assert (Hthree : ∀ votes, ¬ na_self_applies votes THREE_LGTM).
  { intros votes (_ & Heq & _). by apply rules_differ. }
  assert (Hpartial : ∀ votes, (1 ≤ lgtmCount votes < 3)%nat →
     (∀ v, v ∈ counted votes → ¬ in_review_set v) →
     _calc_gate_state votes THREE_LGTM = REVIEW_REQUESTED).
  { intros votes Hl Hnone. rewrite calc_after_na_self by done.
    rewrite decide_False
      by (intros [[Heq _]|[_ ?]]; [by apply rules_differ | lia]).
    apply most_recent_review_none in Hnone as ->.
    by rewrite decide_True by (split; [done|lia]). }
  assert (Hprep : ∀ votes rule,
       ¬ na_self_applies votes rule → ¬ quorum_met votes rule →
       (∀ v, v ∈ counted votes → ¬ in_review_set v) →
       ¬ (rule = THREE_LGTM ∧ (1 ≤ lgtmCount votes)%nat) →
       _calc_gate_state votes rule = PREPARING).
  { intros votes rule Hn Hq Hnone Hno. rewrite calc_after_na_self by done.
    rewrite decide_False by done.
    apply most_recent_review_none in Hnone as ->.
    by rewrite decide_False. }
  split_and!.
  - exact Hpartial.
  - exact Hprep.
  - intros rule. apply Hprep.
    + intros (Hone & _). cbn in Hone. lia.
    + intros [[_ Hl]|[_ Hl]]; cbn in Hl; lia.
    + intros v Hv. cbn in Hv. by apply elem_of_nil in Hv.
    + intros [_ Hl]. cbn in Hl. lia.
  - intros a b Ha Hb.
    assert (Hcnt : ∀ l, Forall (λ v, state v = APPROVED) l →
              counted l = l ∧ lgtmCount l = length l).
    { intros l Hall. assert (Hc : counted l = l).
      { unfold counted. induction Hall as [|v l Hv _ IH]; [done|].
        rewrite filter_cons, IH, Hv. case_decide; [done|states_contra]. }
      split; [done|]. unfold lgtmCount, count_state. rewrite Hc. clear Hc.
      induction Hall as [|v l Hv _ IH]; [done|].
      rewrite !filter_cons, Hv.
      repeat case_decide; simpl in *; try lia; try done; states_contra. }
    split.
    + destruct (Hcnt [a; b]) as [Hc Hl]; [by repeat constructor|].
      apply Hpartial; [rewrite Hl; simpl; lia|].
      rewrite Hc. unfold in_review_set, review_states.
      intros v [->|[->|[]%elem_of_nil]%elem_of_cons]%elem_of_cons;
        rewrite ?Ha, ?Hb; intros Hin;
        repeat (apply elem_of_cons in Hin as [Hin|Hin]; [states_contra|]);
        by apply elem_of_nil in Hin.
    + intros c Hc. destruct (Hcnt [a; b; c]) as [Hcd Hl];
        [by repeat constructor|].
      rewrite calc_after_na_self by done.
      rewrite decide_True by (right; split; [done|rewrite Hl; simpl; lia]).
      rewrite decide_False; [done|].
      rewrite count_state_pos, Hcd.
      intros (v & Hv & Hs). revert Hs.
      repeat (apply elem_of_cons in Hv as [->|Hv];
              [rewrite ?Ha, ?Hb, ?Hc; intros ?; states_contra|]).
      by apply elem_of_nil in Hv.
Qed.
End aggregator_claims.


(** ** The claims about [set_vote] *)

Section coordinator_claims.
Context `{RM : review_models} `{CE : core_enums} `{EV : collaborators}.

Lemma set_vote_phases feature_id gate_type new_state set_by_email gate_id
    now w :
  set_vote feature_id gate_type new_state set_by_email gate_id
           now w
  = match set_vote_lookup feature_id gate_type new_state set_by_email
                          gate_id now w with
    | (inl result, w1) => (result, w1)
    | (inr fr, w1) =>
        set_vote_finish (set_vote_write fr w1).1
                        (set_vote_write fr w1).2
    end.
Proof.
  unfold set_vote. destruct (set_vote_lookup _ _ _ _ _ _ _) as [[r|fr] w1];
    [done|]. by destruct (set_vote_write fr w1).
Qed.

(** A call that runs alone in the schedule is a call of [set_vote]. *)
Lemma run_alone (c : call) (w : World) :
  run [0; 0; 0]%nat [Entered c] w
  = let '(result, w') :=
      set_vote (c_feature_id c) (c_gate_type c) (c_new_state c)
               (c_set_by_email c) (c_gate_id c) (c_now c) w in
    ([Finished result], w').
Proof.
  unfold run, set_vote. simpl.
  destruct (set_vote_lookup _ _ _ _ _ _ _) as [[r|fr] w1]; simpl; [done|].
  destruct (set_vote_write fr w1) as [fr' w2]; simpl.
  by destruct (set_vote_finish fr' w2).
Qed.

(** The write of a call that found no vote of its own makes a row under
    an id that was free, and remembers it. *)
Lemma set_vote_write_new (fr : frame) (w : World) :
  fr_existing_list fr = [] →
  ∃ k v, fr_new_vote (set_vote_write fr w).1 = Some (k, v)
         ∧ votes (set_vote_write fr w).2 = <[k := v]> (votes w)
         ∧ votes w !! k = None
         ∧ set_on v = fr_now fr ∧ set_by v = fr_set_by_email fr.
Proof.
  intros Hnone. unfold set_vote_write. rewrite Hnone. simpl.
  eexists _, _. split_and!; try reflexivity.
  apply not_elem_of_dom, fin_sets.is_fresh.
Qed.

(** A gate that is looked up by feature and type and is not there: the
    call logs a warning and returns [None]; no row is written. *)
Lemma set_vote_missing_gate_by_type feature_id gt new_state set_by_email
    now w :
  get_gate_by_type feature_id gt w = None →
  ∃ w', set_vote feature_id (Some gt) new_state set_by_email
                 None now w = (Return None, w')
        ∧ votes w' = votes w ∧ gates w' = gates w.
Proof.
  intros Hnone. unfold set_vote, set_vote_lookup. rewrite Hnone.
  eexists. split; [reflexivity|]. done.
Qed.

(** A gate that is named by an id and is not there: when the new state
    is valid and the voter has no vote on that id yet, a vote row for
    the missing gate is written all the same. *)
Lemma set_vote_missing_gate_by_id feature_id gate_type new_state
    set_by_email k now w :
  gates w !! k = None →
  is_valid_state new_state = true →
  Vote_get_votes (Some feature_id) (Some k) (Some set_by_email) w = [] →
  set_vote feature_id gate_type new_state set_by_email
           (Some k) now w
  = (Return None,
     with_votes (insert (fresh (dom (votes w)))
                  (mkVote feature_id (Some k) gate_type new_state now
                          set_by_email)) w).
Proof.
  intros Hnone Hvalid Hex. unfold set_vote, set_vote_lookup.
  assert (Hget : Gate_get_by_id (Some k) w = None)
    by (unfold Gate_get_by_id; simpl; by rewrite Hnone).
  rewrite Hget. simpl. rewrite Hvalid. simpl. rewrite Hex. done.
Qed.

(** C4, amended.  When the new state is not one of the defined vote
    states, no Vote row and no Gate row is written, and the call raises
    [ValueError], except when the gate is looked up by feature id and
    gate type and is not found: then the call returns [None].  Calls
    that give neither a gate id nor a gate type are left out: what
    [Gate.get_by_id(None)] does is up to the datastore library. *)
Theorem set_vote_invalid_state feature_id gate_type new_state set_by_email
    gate_id now w :
  is_valid_state new_state = false →
  is_Some gate_id ∨ is_Some gate_type →
  ∃ result w',
    set_vote feature_id gate_type new_state set_by_email
             gate_id now w = (result, w')
    ∧ votes w' = votes w ∧ gates w' = gates w
    ∧ (gate_lookup_fails feature_id gate_type gate_id w →
       result = Return None)
    ∧ (¬ gate_lookup_fails feature_id gate_type gate_id w →
       result = Raise (ValueError "Invalid approval state")).
Proof.
  intros Hinv _. unfold set_vote, set_vote_lookup, gate_lookup_fails.
  destruct gate_id as [k|], gate_type as [gt|]; simpl; rewrite ?Hinv; simpl.
  - eexists _, _. split_and!; try done. by intros [[=] _].
  - eexists _, _. split_and!; try done. by intros [[=] _].
  - destruct (get_gate_by_type feature_id gt w) as [gate|] eqn:Hg;
      rewrite ?Hinv; simpl; eexists _, _; split_and!; try done.
    + intros (_ & gt' & [= <-] & Hnone). congruence.
    + intros Hno. destruct Hno. eauto.
  - eexists _, _. split_and!; try done. by intros (_ & ? & [=] & _).
Qed.

(** C2, amended.  A call that made a new row and, on reading the votes
    of its gate back, finds a row by the same voter with an earlier
    timestamp than its own [now], deletes the row it made and returns
    [None]; the gate rows are not touched, and the Vote rows are those
    it read back minus its own. *)
Theorem set_vote_lost_race (fr : frame) (w : World) gate new_vote k v :
  fr_gate fr = Some gate →
  fr_new_vote fr = Some new_vote →
  votes w !! k = Some v →
  gate_id v = Some (integer_id gate) →
  set_by v = fr_set_by_email fr →
  set_on v < fr_now fr →
  ∃ w', set_vote_finish fr w = (Return None, w')
        ∧ votes w' = delete (integer_id new_vote) (votes w)
        ∧ gates w' = gates w
        ∧ trace w' = trace w.
Proof.
  intros Hgate Hnew Hk Hg Hby Hon. unfold set_vote_finish.
  rewrite Hgate, Hnew.
  assert (Hin : (k, v) ∈ double_votes fr
            (Vote_get_votes None (Some (integer_id gate)) None w)).
  { unfold double_votes, Vote_get_votes.
    rewrite !list_elem_of_filter, elem_of_map_to_list. simpl.
    split_and!; done. }
  destruct (double_votes fr _) as [|d ds]; [by apply elem_of_nil in Hin|].
  eexists. split; [reflexivity|]. done.
Qed.
End coordinator_claims.

(** ** The claim about [auto_assign_reviewer] *)

Section assignment_claims.
Context `{CE : core_enums} `{EV : collaborators}.

(** When the rotation endpoint answers 200 with a body that does not
    parse, the failure is logged and no gate is written, but the call
    does not return: reading [response_json], which the failed [try]
    left unbound, raises [UnboundLocalError]. *)
Lemma auto_assign_reviewer_parse_failure gate w afd rotation :
  APPROVAL_FIELDS_BY_ID !! Gate.gate_type gate.2 = Some afd →
  previously_assigned gate afd (Gate_query (Gate.feature_id gate.2) None w)
    = Return None →
  approvers afd = inl IN_NDB →
  rotation_url (get_gate_def (Gate.gate_type gate.2)) = Some rotation →
  rotation ≠ "" →
  status_code (requests_get rotation) = 200 →
  json_loads (content (requests_get rotation)) = None →
  ∃ w', auto_assign_reviewer gate w
        = (Raise (UnboundLocalError "response_json"), w')
      ∧ gates w' = gates w
      ∧ Logged "info" "failed to parse content" ∈ trace w'.
Proof.
  intros Hafd Hprev Happ Hrot Hne Hst Hjs. unfold auto_assign_reviewer.
  rewrite Hafd, Hprev, Happ. rewrite decide_False by (by intros []).
  rewrite Hrot. destruct rotation as [|c rest]; [done|].
  rewrite Hst. rewrite decide_False by (by intros []).
  unfold parse_response. rewrite Hjs. eexists. split; [reflexivity|].
  split; [done|]. simpl. set_solver.
Qed.
End assignment_claims.

(** ** The claim about [get_approvers] *)

Section resolver_claims.
Context `{CE : core_enums} `{EV : collaborators}.

Lemma get_approvers_falsy gate_type afd now w :
  APPROVAL_FIELDS_BY_ID !! gate_type = Some afd →
  rediscache_get (cache_key gate_type) now w = Some []
  ∨ rediscache_get (cache_key gate_type) now w = None →
  get_approvers gate_type now w = resolve_approvers gate_type afd now w.
Proof.
  intros Hafd Hc. unfold get_approvers. rewrite Hafd.
  by destruct Hc as [-> | ->].
Qed.

Lemma resolve_approvers_cache gate_type afd now w owners w1 :
  resolve_approvers gate_type afd now w = (Return owners, w1) →
  cache w1 !! cache_key gate_type = Some (now + CACHE_EXPIRATION, owners).
Proof.
  unfold resolve_approvers.
  destruct (match approvers afd with inl _ => _ | inr _ => _ end)
    as [[o|e] w0]; [|done].
  intros [= <- <-]. simpl. apply lookup_insert_eq.
Qed.

Lemma fetch_owners_requests source now w :
  (∀ f, get_raw_owner_file source w = Some f → is_fresh now f = false) →
  HttpGet source ∈ trace (fetch_owners source now w).2.
Proof.
  intros Hstale. unfold fetch_owners.
  destruct (get_raw_owner_file source w) as [f|] eqn:Hf.
  - rewrite (Hstale f eq_refl). case_decide; simpl; set_solver.
  - case_decide; simpl; set_solver.
Qed.

(** C10.  Only a non-empty approver list is memoized.  A non-empty
    cached list is returned as it is, with nothing resolved.  A cached
    empty list is handled exactly as a missing entry: the call resolves
    the approvers again.  So after a call that gave the empty list every
    later call resolves again, and for a source that is a URL without a
    fresh stored copy each such call sends a request. *)
Theorem get_approvers_empty_not_memoized gate_type afd now w :
  APPROVAL_FIELDS_BY_ID !! gate_type = Some afd →
  (∀ email emails,
     rediscache_get (cache_key gate_type) now w = Some (email :: emails) →
     get_approvers gate_type now w = (Return (email :: emails), w))
  ∧ (rediscache_get (cache_key gate_type) now w = Some []
     ∨ rediscache_get (cache_key gate_type) now w = None →
     get_approvers gate_type now w = resolve_approvers gate_type afd now w)
  ∧ (∀ w1 later,
     get_approvers gate_type now w = (Return [], w1) →
     get_approvers gate_type later w1
     = resolve_approvers gate_type afd later w1)
  ∧ (∀ source,
     rediscache_get (cache_key gate_type) now w = Some [] →
     approvers afd = inl source → source ≠ IN_NDB →
     (∀ f, get_raw_owner_file source w = Some f → is_fresh now f = false) →
     HttpGet source ∈ trace (get_approvers gate_type now w).2).
Proof.
  intros Hafd. split_and!.
  - intros email emails Hc. unfold get_approvers. by rewrite Hafd, Hc.
  - by apply get_approvers_falsy.
  - intros w1 later Hfirst. apply get_approvers_falsy; [done|].
    assert (Hres : resolve_approvers gate_type afd now w = (Return [], w1)).
    { revert Hfirst. unfold get_approvers. rewrite Hafd.
      destruct (rediscache_get _ now w) as [[|email emails]|]; try done. }
    apply resolve_approvers_cache in Hres.
    unfold rediscache_get. rewrite Hres. case_decide; auto.
  - intros source Hc Happ Hne Hstale.
    rewrite (get_approvers_falsy _ afd) by auto.
    unfold resolve_approvers. rewrite Happ, decide_False by done.
    pose proof (fetch_owners_requests source now w Hstale) as Hreq.
    destruct (fetch_owners source now w) as [[owners|e] w0]; simpl in *;
      done.
Qed.
End resolver_claims.

(** ** The definitions at work on sample inputs *)

Example sorted_reverse_is_stable :
  sorted_reverse fst [(1, "a"); (2, "b"); (1, "c"); (2, "d"); (3, "e")]
  = [(3, "e"); (2, "b"); (2, "d"); (1, "a"); (1, "c")].
Proof. reflexivity. Qed.

Example Counter_counts : Counter [5; 1; 5; 7] !!! 5 = 2%nat.
Proof. reflexivity. Qed.

(** Run alone, the first call makes the vote row and moves the gate to
    REVIEW_REQUESTED. *)
Example set_vote_alone :
  ∃ w', set_vote (EV := outage) 1 None APPROVED voter (Some 7) 1
                 one_gate_world = (Return (Some REVIEW_REQUESTED), w')
        ∧ map_to_list (votes w')
          = [(0, mkVote 1 (Some 7) None APPROVED 1 voter)].
Proof. eexists. split; vm_compute; reflexivity. Qed.

(** When both calls write before either reads back, the later one backs
    out and one row is left. *)
Example race_resolved :
  let '(calls, w) :=
    run (EV := outage) [0; 1; 0; 1; 0; 1]%nat
        [Entered first_call; Entered second_call] one_gate_world in
  calls !! 1%nat = Some (Finished (Return None))
  ∧ map_to_list (votes w) = [(0, mkVote 1 (Some 7) None APPROVED 1 voter)].
Proof. vm_compute. done. Qed.

(** ** Claims at concrete inputs *)

(** The quorum rule on two vote lists under ONE_LGTM: one with an NA
    vote, one without. *)
Lemma calc_gate_state_quorum_witness :
  _calc_gate_state [vote_at APPROVED 1 "a"; vote_at NA 2 "b";
                    vote_at DENIED 3 "c"] ONE_LGTM = NA
  ∧ _calc_gate_state [vote_at APPROVED 1 "a"; vote_at DENIED 3 "c"] ONE_LGTM
    = APPROVED.
Proof.
  split.
  - apply (calc_gate_state_quorum
             [vote_at APPROVED 1 "a"; vote_at NA 2 "b"; vote_at DENIED 3 "c"]
             ONE_LGTM).
    + intros [Hone _]. vm_compute in Hone. discriminate.
    + left. split; [reflexivity | vm_compute; lia].
    + exists (vote_at NA 2 "b"). split; [|reflexivity].
      vm_compute. right. left.
  - apply (calc_gate_state_quorum
             [vote_at APPROVED 1 "a"; vote_at DENIED 3 "c"] ONE_LGTM).
    + intros [Hone _]. vm_compute in Hone. discriminate.
    + left. split; [reflexivity | vm_compute; lia].
    + intros v Hv. vm_compute in Hv.
      apply elem_of_cons in Hv as [->|Hv]; [vm_compute; discriminate|].
      apply elem_of_cons in Hv as [->|Hv]; [vm_compute; discriminate|].
      by apply elem_of_nil in Hv.
Defined.

(** A lone NA_SELF vote beside a NO_RESPONSE vote, and an NA_SELF vote
    confirmed by an NA_VERIFIED vote. *)
Lemma calc_gate_state_na_self_witness :
  _calc_gate_state [vote_at NA_SELF 1 "owner"; vote_at NO_RESPONSE 2 "b"]
                   ONE_LGTM = NA_SELF
  ∧ _calc_gate_state [vote_at NA_SELF 1 "owner"; vote_at NA_VERIFIED 2 "b"]
                     ONE_LGTM = NA_VERIFIED.
Proof.
  split.
  - apply (proj1 (calc_gate_state_na_self
             [vote_at NA_SELF 1 "owner"; vote_at NO_RESPONSE 2 "b"])
             (vote_at NA_SELF 1 "owner")); reflexivity.
  - apply (proj1 (proj2 (calc_gate_state_na_self
             [vote_at NA_SELF 1 "owner"; vote_at NA_VERIFIED 2 "b"])));
      vm_compute; [reflexivity | lia].
Defined.

(** The most recent vote of the review set wins, whatever its place in
    the list. *)
Lemma calc_gate_state_most_recent_witness :
  _calc_gate_state [vote_at NEEDS_WORK 5 "a"; vote_at REVIEW_REQUESTED 9 "o";
                    vote_at DENIED 2 "b"] ONE_LGTM = REVIEW_REQUESTED
  ∧ _calc_gate_state [vote_at DENIED 1 "a"; vote_at REVIEW_REQUESTED 2 "o"]
                     THREE_LGTM = REVIEW_REQUESTED.
Proof.
  split.
  - apply (proj2 (proj1 calc_gate_state_most_recent
             [vote_at NEEDS_WORK 5 "a"; vote_at REVIEW_REQUESTED 9 "o";
              vote_at DENIED 2 "b"] ONE_LGTM
             ltac:(intros [Hone _]; vm_compute in Hone; discriminate)
             ltac:(intros [[_ Hl]|[Hr _]];
                   [vm_compute in Hl; lia | discriminate Hr])
             ltac:(exists (vote_at DENIED 2 "b"); split;
                   [vm_compute; set_solver | vm_compute; set_solver]))
             1%nat (vote_at REVIEW_REQUESTED 9 "o")).
    + reflexivity.
    + vm_compute. set_solver.
    + intros [|[|[|j]]] u Hne Hu _; vm_compute in Hu; simplify_eq;
        vm_compute; done.
  - apply (proj2 calc_gate_state_most_recent); [reflexivity..|].
    vm_compute. reflexivity.
Defined.

(** Partial approval under THREE_LGTM, a vote list on which no branch
    decides, and three approvals. *)
Lemma calc_gate_state_partial_witness :
  _calc_gate_state [vote_at APPROVED 1 "a"; vote_at NA 2 "b";
                    vote_at NO_RESPONSE 3 "c"] THREE_LGTM = REVIEW_REQUESTED
  ∧ _calc_gate_state [vote_at NA_VERIFIED 1 "a"] ONE_LGTM = PREPARING
  ∧ _calc_gate_state [vote_at APPROVED 1 "a"; vote_at APPROVED 2 "b";
                      vote_at APPROVED 3 "c"] THREE_LGTM = APPROVED.
Proof.
  split_and!.
  - apply (proj1 calc_gate_state_partial).
    + vm_compute. lia.
    + apply Forall_forall. compute_done.
  - apply (proj1 (proj2 calc_gate_state_partial)).
    + intros [Hone _]. vm_compute in Hone. discriminate.
    + intros [[_ Hl]|[Hr _]]; [vm_compute in Hl; lia | discriminate Hr].
    + apply Forall_forall. compute_done.
    + intros [Hr _]. discriminate Hr.
  - apply (proj2 (proj2 (proj2 calc_gate_state_partial))
             (vote_at APPROVED 1 "a") (vote_at APPROVED 2 "b")
             eq_refl eq_refl).
    reflexivity.
Defined.

(** The second of two racing calls, reading back after both have
    written: it finds the row of the first and deletes its own, row 1. *)
Lemma set_vote_lost_race_witness :
  ∃ fr w,
    both_written = ([Finished (Return (Some NEEDS_WORK)); Written fr], w)
    ∧ ∃ w', set_vote_finish (EV := outage) fr w = (Return None, w')
            ∧ votes w' = delete 1 (votes w)
            ∧ gates w' = gates w
            ∧ trace w' = trace w.
Proof.
  eexists _, _. split; [vm_compute; reflexivity|].
  eapply (set_vote_lost_race (EV := outage) _ _ _ (1, _) 0).
  - reflexivity.
  - reflexivity.
  - vm_compute. reflexivity.
  - reflexivity.
  - reflexivity.
  - vm_compute. reflexivity.
Defined.

(** C2, as stated, fails on this run: the second call finishes while the
    first is between its query and its write, neither call sees an
    earlier row of the other, and the voter is left with two live
    votes on gate 7. *)
Lemma set_vote_race_two_rows :
  one_vote_per_voter one_gate_world
  ∧ Forall finished overtaken.1
  ∧ length (votes_of 7 voter overtaken.2) = 2%nat
  ∧ ¬ one_vote_per_voter overtaken.2.
Proof.
  split_and!.
  - intros g s. unfold votes_of, Vote_get_votes. simpl.
    rewrite map_to_list_empty. simpl. lia.
  - vm_compute. repeat constructor.
  - vm_compute. reflexivity.
  - intros Hone. specialize (Hone 7 voter). vm_compute in Hone. lia.
Qed.

(** C3 at a failing input: a vote for gate id 99, which no gate has.  The
    call returns [None] but the vote row is written; with a state that is
    not valid the same call raises [ValueError].  Looked up by feature
    and gate type instead, the missing gate ends the call with nothing
    written and nothing raised. *)
Theorem set_vote_unknown_gate_id :
  gates empty_world !! 99 = None
  ∧ (∃ w', set_vote (EV := outage) 1 None APPROVED voter (Some 99) 10
                    empty_world = (Return None, w')
           ∧ map_to_list (votes w')
             = [(0, mkVote 1 (Some 99) None APPROVED 10 voter)])
  ∧ (set_vote (EV := outage) 1 None 99 voter (Some 99) 10 empty_world).1
    = Raise (ValueError "Invalid approval state")
  ∧ (∃ w', set_vote (EV := outage) 1 (Some GATE_API_SHIP) APPROVED voter
                    None 10 empty_world = (Return None, w')
           ∧ votes w' = ∅).
Proof.
  split_and!.
  - reflexivity.
  - eexists. split.
    + rewrite set_vote_missing_gate_by_id by reflexivity. reflexivity.
    + vm_compute. reflexivity.
  - vm_compute. reflexivity.
  - edestruct (set_vote_missing_gate_by_type (EV := outage) 1 GATE_API_SHIP
                 APPROVED voter 10 empty_world) as (w' & Hcall & Hv & _);
      [reflexivity|].
    exists w'. split; [exact Hcall | exact Hv].
Qed.

(** C4, as stated, fails here: the state 99 is not a vote state, the gate
    is looked up by feature and type and is missing, and the call returns
    [None] instead of raising. *)
Lemma set_vote_invalid_state_no_error :
  is_valid_state 99 = false
  ∧ (set_vote (EV := outage) 1 (Some GATE_API_SHIP) 99 voter None 10
              empty_world).1 = Return None
  ∧ (set_vote (EV := outage) 1 (Some GATE_API_SHIP) 99 voter None 10
              empty_world).1 ≠ Raise (ValueError "Invalid approval state").
Proof. split_and!; [reflexivity | reflexivity | discriminate]. Qed.

(** An invalid state for a gate that is found by feature and type:
    [ValueError], and the store is as before. *)
Lemma set_vote_invalid_state_witness :
  ∃ w', set_vote (EV := outage) 1 (Some GATE_API_SHIP) 99 voter None 10
                 one_gate_world
        = (Raise (ValueError "Invalid approval state"), w')
        ∧ votes w' = votes one_gate_world ∧ gates w' = gates one_gate_world.
Proof.
  destruct (set_vote_invalid_state (EV := outage) 1 (Some GATE_API_SHIP) 99
              voter None 10 one_gate_world)
    as (result & w' & Hcall & Hv & Hg & _ & Hraise).
  - reflexivity.
  - right. by eexists.
  - exists w'. rewrite Hcall, Hraise; [done|].
    intros (_ & gt & [= <-] & Hnone). vm_compute in Hnone. discriminate.
Defined.

(** C6 at a failing input: the rotation endpoint of the privacy ship gate
    answers 200 with an HTML page.  The parse failure is logged and no
    gate is written, but the call ends with [UnboundLocalError]. *)
Theorem auto_assign_reviewer_malformed_json :
  ∃ w', auto_assign_reviewer (EV := sign_in_page) privacy_gate privacy_world
        = (Raise (UnboundLocalError "response_json"), w')
      ∧ gates w' = gates privacy_world
      ∧ Logged "info" "failed to parse content" ∈ trace w'.
Proof.
  apply (auto_assign_reviewer_parse_failure (EV := sign_in_page)
           privacy_gate privacy_world PrivacyShipApproval
           "https://rotation.example.org/oncall");
    try reflexivity. discriminate.
Qed.

(** Two calls in a row while the OWNERS endpoint is down: the first
    caches the empty list, the second finds it, resolves again and sends
    a second request. *)
Lemma get_approvers_empty_not_memoized_witness :
  ∃ w1 w2,
    get_approvers (EV := outage) GATE_API_SHIP 0 empty_world = (Return [], w1)
    ∧ get_approvers (EV := outage) GATE_API_SHIP 60 w1 = (Return [], w2)
    ∧ rediscache_get (cache_key GATE_API_SHIP) 60 w1 = Some []
    ∧ filter (λ e, e = HttpGet API_OWNERS_URL) (trace w1)
      = [HttpGet API_OWNERS_URL]
    ∧ filter (λ e, e = HttpGet API_OWNERS_URL) (trace w2)
      = [HttpGet API_OWNERS_URL; HttpGet API_OWNERS_URL].
Proof.
  assert (Hafd : APPROVAL_FIELDS_BY_ID !! GATE_API_SHIP = Some ShipApproval)
    by reflexivity.
  eexists _, _. split; [vm_compute; reflexivity|].
  split.
  - rewrite (proj1 (proj2 (get_approvers_empty_not_memoized (EV := outage)
                             GATE_API_SHIP ShipApproval 60 _ Hafd)));
      [vm_compute; reflexivity | left; vm_compute; reflexivity].
  - split_and!; vm_compute; reflexivity.
Defined.

(** * Further properties of the module *)

(** ** More on [_calc_gate_state] *)

Section aggregator_more.
Context `{RM : review_models}.

Lemma counted_perm votes votes' :
  votes ≡ₚ votes' → counted votes ≡ₚ counted votes'.
Proof. intros Hp. unfold counted. by rewrite Hp. Qed.

Lemma count_state_perm s votes votes' :
  votes ≡ₚ votes' → count_state s votes = count_state s votes'.
Proof. intros Hp. unfold count_state. by rewrite Hp. Qed.

(** X1.  The state of a gate is PREPARING, REVIEW_REQUESTED, or the state
    of one of the votes that remain after discarding NO_RESPONSE; it is
    never NO_RESPONSE. *)
Theorem calc_gate_state_from_votes (votes : list Vote) (rule : string) :
  (_calc_gate_state votes rule = PREPARING
   ∨ _calc_gate_state votes rule = REVIEW_REQUESTED
   ∨ ∃ v, v ∈ counted votes ∧ state v = _calc_gate_state votes rule)
  ∧ _calc_gate_state votes rule ≠ NO_RESPONSE.
Proof.
  assert (Hfrom : _calc_gate_state votes rule = PREPARING
   ∨ _calc_gate_state votes rule = REVIEW_REQUESTED
   ∨ ∃ v, v ∈ counted votes ∧ state v = _calc_gate_state votes rule).
  { destruct (decide (na_self_applies votes rule)) as [Ha|Hn].
    - right. right. destruct Ha as (Hone & -> & Hcase).
      unfold _calc_gate_state, na_self_case. fold (counted votes).
      rewrite !Counter_states.
      fold (count_state NA_SELF (counted votes)).
      fold (count_state NA_VERIFIED (counted votes)).
      rewrite decide_True by done.
      case_decide as Hlen.
      + apply count_state_pos. rewrite Hone. lia.
      + destruct Hcase as [?|Hver]; [done|].
        rewrite decide_True by done. apply count_state_pos. lia.
    - rewrite calc_after_na_self by done.
      case_decide as Hq.
      + right. right. case_decide as Hna.
        * by apply count_state_pos.
        * apply count_state_pos.
          destruct Hq as [[_ Hl]|[_ Hl]]; unfold lgtmCount in Hl; lia.
      + destruct (most_recent_review (counted votes)) as [s|] eqn:Hm.
        * right. right.
          apply most_recent_review_some in Hm as (w & Hw & _ & -> & _).
          by exists w.
        * case_decide; auto. }
  split; [done|].
  destruct Hfrom as [->|[->|(v & Hv & <-)]].
  - intros ?. states_contra.
  - intros ?. states_contra.
  - unfold counted in Hv. apply list_elem_of_filter in Hv. tauto.
Qed.

(** X2.  When no two of the remaining votes of the review set carry the
    same timestamp, the order in which the votes are listed does not
    matter: every rearrangement of the list gives the same state. *)
Theorem calc_gate_state_perm (votes votes' : list Vote) (rule : string) :
  (∀ i j u v, counted votes !! i = Some u → counted votes !! j = Some v →
     in_review_set u → in_review_set v → set_on u = set_on v → i = j) →
  votes ≡ₚ votes' →
  _calc_gate_state votes' rule = _calc_gate_state votes rule.
Proof.
  intros Hdistinct Hp.
  pose proof (counted_perm _ _ Hp) as Hcp.
  assert (Hcnt : ∀ s, count_state s (counted votes)
                      = count_state s (counted votes'))
    by (intros s; by apply count_state_perm).
  assert (Hlen : length (counted votes) = length (counted votes'))
    by (by rewrite Hcp).
  assert (Hrecent : most_recent_review (counted votes')
                    = most_recent_review (counted votes)).
  { destruct (most_recent_review (counted votes)) as [s|] eqn:Hm.
    - apply most_recent_review_some in Hm as (w & Hw & Hrw & -> & Hmax).
      destruct (most_recent_review (counted votes')) as [s'|] eqn:Hm'.
      + apply most_recent_review_some in Hm' as (w' & Hw' & Hrw' & -> & Hmax').
        rewrite <- Hcp in Hw'.
        assert (set_on w = set_on w').
        { apply Z.le_antisymm; [apply Hmax'; [by rewrite <- Hcp|done]|].
          by apply Hmax. }
        apply list_elem_of_lookup in Hw as [i Hi].
        apply list_elem_of_lookup in Hw' as [j Hj].
        assert (i = j) as -> by eauto. congruence.
      + rewrite most_recent_review_none in Hm'.
        destruct (Hm' w); [by rewrite <- Hcp|done].
    - rewrite most_recent_review_none in Hm.
      apply most_recent_review_none. intros u Hu. apply Hm. by rewrite Hcp. }
  unfold _calc_gate_state, na_self_case.
  fold (counted votes) (counted votes'). rewrite !Counter_states.
  fold (count_state NA_SELF (counted votes))
       (count_state NA_SELF (counted votes'))
       (count_state NA_VERIFIED (counted votes))
       (count_state NA_VERIFIED (counted votes'))
       (count_state APPROVED (counted votes))
       (count_state APPROVED (counted votes'))
       (count_state NA (counted votes))
       (count_state NA (counted votes')).
  by rewrite <- !Hcnt, <- Hlen, Hrecent.
Qed.
End aggregator_more.

(** ** The gate catalog and the lookup of gates *)

Section catalog_more.
Context `{RM : review_models} `{CE : core_enums} `{EV : collaborators}.

Lemma catalog_foldl_lookup (l : list GateInfo) (d : gmap Z GateInfo) k afd :
  foldl (λ d afd, <[gi_gate_type afd := afd]> d) d l !! k = Some afd →
  (afd ∈ l ∧ gi_gate_type afd = k) ∨ d !! k = Some afd.
Proof.
  revert d. induction l as [|x l IH]; intros d; simpl; [auto|].
  intros [[Hin Hk]|Hd]%IH.
  - left. split; [by right|done].
  - destruct (decide (gi_gate_type x = k)) as [<-|Hne].
    + rewrite lookup_insert_eq in Hd. injection Hd as ->.
      left. split; [left|done].
    + rewrite lookup_insert_ne in Hd by done. by right.
Qed.

Lemma catalog_foldl_dom (l : list GateInfo) (d : gmap Z GateInfo) k :
  k ∈ dom (foldl (λ d afd, <[gi_gate_type afd := afd]> d) d l)
  ↔ k ∈ dom d ∨ ∃ afd, afd ∈ l ∧ gi_gate_type afd = k.
Proof.
  revert d. induction l as [|x l IH]; intros d; simpl.
  - split; [auto|]. intros [?|(afd & Hin & _)]; [done|].
    by apply elem_of_nil in Hin.
  - rewrite IH, dom_insert_L, elem_of_union, elem_of_singleton. split.
    + intros [[->|?]|(afd & Hin & Hk)]; [right|by left|right].
      * exists x. split; [left|done].
      * exists afd. split; [by right|done].
    + intros [?|(afd & [->|Hin]%elem_of_cons & Hk)];
        [by left; right | by left; left | right; eauto].
Qed.

(** X3.  Looking a gate type up in [APPROVAL_FIELDS_BY_ID] gives one of
    the sixteen definitions, filed under its own gate type, with rule
    ONE_LGTM or THREE_LGTM; and [is_valid_gate_type] accepts exactly the
    gate types of the sixteen definitions.  This holds whatever integer
    codes the gate types have. *)
Theorem approval_fields_by_id_entries :
  (∀ k afd, APPROVAL_FIELDS_BY_ID !! k = Some afd →
     afd ∈ approval_field_defs ∧ gi_gate_type afd = k
     ∧ (rule afd = ONE_LGTM ∨ rule afd = THREE_LGTM))
  ∧ (∀ k, is_valid_gate_type k = true
          ↔ ∃ afd, afd ∈ approval_field_defs ∧ gi_gate_type afd = k).
Proof.
  split.
  - intros k afd Hk. unfold APPROVAL_FIELDS_BY_ID in Hk.
    apply catalog_foldl_lookup in Hk as [[Hin Hk]|Hk];
      [|by rewrite lookup_empty in Hk].
    split_and!; [done..|].
    unfold approval_field_defs in Hin.
    repeat (apply elem_of_cons in Hin as [->|Hin]; [by auto|]).
    by apply elem_of_nil in Hin.
  - intros k. unfold is_valid_gate_type, APPROVAL_FIELDS_BY_ID.
    rewrite bool_decide_eq_true, catalog_foldl_dom, dom_empty_L.
    split; [intros [Hin|?]; [by apply elem_of_empty in Hin|done] | auto].
Qed.

(** X4.  [get_gate_by_type] returns [None] exactly when the store has no
    gate of that feature and gate type; a gate it returns is a stored
    row of that feature and gate type. *)
Theorem get_gate_by_type_found (feature gt : Z) (w : World) :
  (get_gate_by_type feature gt w = None
   ↔ ∀ k g, gates w !! k = Some g →
            ¬ (Gate.feature_id g = feature ∧ Gate.gate_type g = gt))
  ∧ (∀ gate, get_gate_by_type feature gt w = Some gate →
       gates w !! integer_id gate = Some gate.2
       ∧ Gate.feature_id gate.2 = feature ∧ Gate.gate_type gate.2 = gt).
Proof.
  unfold get_gate_by_type, Gate_query. split.
  - rewrite head_None. split.
    + intros Hnil k g Hk Hmatch.
      assert (Hin : (k, g) ∈ filter
                (λ e : Z * Gate.t, Gate.feature_id e.2 = feature
                   ∧ meets (Some gt) (Gate.gate_type e.2))
                (map_to_list (gates w))).
      { apply list_elem_of_filter. split; [done|].
        by apply elem_of_map_to_list. }
      rewrite Hnil in Hin. by apply elem_of_nil in Hin.
    + intros Hnone. destruct (filter _ _) as [|[k g] rest] eqn:Hf; [done|].
      assert (Hin : (k, g) ∈ filter
                (λ e : Z * Gate.t, Gate.feature_id e.2 = feature
                   ∧ meets (Some gt) (Gate.gate_type e.2))
                (map_to_list (gates w))) by (rewrite Hf; left).
      apply list_elem_of_filter in Hin as [Hmatch Hin].
      apply elem_of_map_to_list in Hin. by destruct (Hnone k g).
  - intros [k g] Hhead. apply head_Some_elem_of in Hhead.
    apply list_elem_of_filter in Hhead as [[Hf Ht] Hin].
    apply elem_of_map_to_list in Hin. done.
Qed.

(** X5.  [update_gate_approval_state] leaves the gate with the state that
    [_calc_gate_state] gives under the rule of its gate type (ONE_LGTM
    for a gate type that the catalog does not know), touches no other
    field, reports a change exactly when the state was different, and
    reports none when it is applied again. *)
Theorem update_gate_approval_state_result (gate : entity Gate.t)
    (votes : list (entity Vote)) :
  let gate_rule :=
    match APPROVAL_FIELDS_BY_ID !! Gate.gate_type gate.2 with
    | Some afd => rule afd
    | None => ONE_LGTM
    end in
  let updated := (update_gate_approval_state gate votes).1 in
  let changed := (update_gate_approval_state gate votes).2 in
  Gate.state updated.2 = _calc_gate_state (snd <$> votes) gate_rule
  ∧ integer_id updated = integer_id gate
  ∧ Gate.feature_id updated.2 = Gate.feature_id gate.2
  ∧ Gate.gate_type updated.2 = Gate.gate_type gate.2
  ∧ Gate.assignee_emails updated.2 = Gate.assignee_emails gate.2
  ∧ Gate.timestamps updated.2 = Gate.timestamps gate.2
  ∧ (changed = true ↔ Gate.state gate.2 ≠ Gate.state updated.2)
  ∧ update_gate_approval_state updated votes = (updated, false).
Proof.
  unfold update_gate_approval_state.
  destruct (APPROVAL_FIELDS_BY_ID !! Gate.gate_type gate.2) as [afd|] eqn:Hafd;
    simpl; case_decide as Hs; simpl; rewrite ?Hafd; simpl;
    rewrite ?decide_True by done;
    split_and!; try done; try (split; [done|congruence]);
    split; congruence.
Qed.
End catalog_more.

(** ** Helpers on the lookup of gates *)

Section lookup_helpers.
Context `{RM : review_models} `{CE : core_enums} `{EV : collaborators}.

Lemma gate_by_type_stored feature gt w gate :
  get_gate_by_type feature gt w = Some gate →
  gates w !! integer_id gate = Some gate.2
  ∧ Gate.feature_id gate.2 = feature ∧ Gate.gate_type gate.2 = gt.
Proof.
  unfold get_gate_by_type, Gate_query. destruct gate as [k g].
  intros Hhead. apply head_Some_elem_of in Hhead.
  apply list_elem_of_filter in Hhead as [[Hf Ht] Hin].
  apply elem_of_map_to_list in Hin. done.
Qed.
End lookup_helpers.

(** ** More on [set_vote] *)

Section coordinator_more.
Context `{RM : review_models} `{CE : core_enums} `{EV : collaborators}.

Lemma Gate_get_by_id_stored gid g w :
  gates w !! gid = Some g → Gate_get_by_id (Some gid) w = Some (gid, g).
Proof. intros Hg. unfold Gate_get_by_id. simpl. by rewrite Hg. Qed.


Lemma existing_vote_by_voter feature gid set_by_email w e rest :
  Vote_get_votes (Some feature) gid (Some set_by_email) w = e :: rest →
  votes w !! integer_id e = Some e.2 ∧ set_by e.2 = set_by_email
  ∧ feature_id e.2 = feature ∧ meets (Some <$> gid) (gate_id e.2).
Proof.
  intros Hq. assert (Hin : e ∈ Vote_get_votes (Some feature) gid
                             (Some set_by_email) w) by (rewrite Hq; left).
  unfold Vote_get_votes in Hin.
  apply list_elem_of_filter in Hin as [(Hf & Hg & Hs) Hin].
  destruct e as [k v]. by apply elem_of_map_to_list in Hin.
Qed.

(** What the first part of a call leaves: the store as it was, and, when
    the call goes on, its local variables. *)
Lemma set_vote_lookup_cases feature gtype new_state set_by_email gate_id
    now w :
  match set_vote_lookup feature gtype new_state set_by_email gate_id now w
  with
  | (inl r, w1) =>
      votes w1 = votes w ∧ gates w1 = gates w
      ∧ owners_files w1 = owners_files w ∧ cache w1 = cache w
  | (inr fr, w1) =>
      w1 = w ∧ is_valid_state new_state = true
      ∧ fr_feature_id fr = feature
      ∧ fr_new_state fr = new_state ∧ fr_now fr = now
      ∧ fr_set_by_email fr = set_by_email ∧ fr_new_vote fr = None
      ∧ fr_existing_list fr
        = Vote_get_votes (Some feature) (fr_gate_id fr) (Some set_by_email) w
      ∧ (∀ gate, fr_gate fr = Some gate →
           gates w !! integer_id gate = Some gate.2
           ∧ fr_gate_id fr = Some (integer_id gate))
      ∧ (∀ gid, gate_id = Some gid →
           fr_gate_id fr = Some gid ∧ fr_gate fr = Gate_get_by_id (Some gid) w)
  end.
Proof.
  unfold set_vote_lookup.
  destruct gate_id as [gid|], gtype as [gt|]; simpl;
    try (destruct (get_gate_by_type feature gt w) as [gate|] eqn:Hfound;
         simpl; [|done]);
    (destruct (is_valid_state new_state) eqn:Hv; simpl; [|done]);
    split_and!; try done;
    try (by intros ? [= <-]); try (by intros ? [=]).
  - intros [k g]. unfold Gate_get_by_id. simpl.
    destruct (gates w !! gid) eqn:Hg; simpl; [|done]. by intros [= <- <-].
  - intros [k g]. unfold Gate_get_by_id. simpl.
    destruct (gates w !! gid) eqn:Hg; simpl; [|done]. by intros [= <- <-].
  - intros gate' [= <-].
    by destruct (gate_by_type_stored feature gt w gate Hfound).
Qed.

(** What the write leaves. *)
Lemma set_vote_write_cases (fr : frame) (w : World) :
  let fr' := (set_vote_write fr w).1 in
  let w' := (set_vote_write fr w).2 in
  gates w' = gates w ∧ owners_files w' = owners_files w
  ∧ cache w' = cache w ∧ trace w' = trace w
  ∧ fr_gate fr' = fr_gate fr ∧ fr_set_by_email fr' = fr_set_by_email fr
  ∧ fr_now fr' = fr_now fr
  ∧ match fr_existing_list fr with
    | existing :: _ =>
        fr' = fr
        ∧ votes w' = <[integer_id existing :=
                         mkVote (feature_id existing.2) (gate_id existing.2)
                                (gate_type existing.2) (fr_new_state fr)
                                (fr_now fr) (set_by existing.2)]> (votes w)
    | [] =>
        let v := mkVote (fr_feature_id fr) (fr_gate_id fr) (fr_gate_type fr)
                        (fr_new_state fr) (fr_now fr) (fr_set_by_email fr) in
        let k := fresh (dom (votes w)) in
        fr_new_vote fr' = Some (k, v)
        ∧ votes w !! k = None
        ∧ votes w' = <[k := v]> (votes w)
    end.
Proof.
  unfold set_vote_write. destruct (fr_existing_list fr); simpl.
  - split_and!; try done. apply not_elem_of_dom, fin_sets.is_fresh.
  - done.
Qed.

(** What the last part leaves: it either backs the new vote out, or
    writes at most the gate. *)
Lemma set_vote_finish_cases (fr : frame) (w : World) :
  let w' := (set_vote_finish fr w).2 in
  owners_files w' = owners_files w ∧ cache w' = cache w
  ∧ ((∃ new_vote, fr_new_vote fr = Some new_vote
        ∧ votes w' = delete (integer_id new_vote) (votes w)
        ∧ gates w' = gates w)
     ∨ (votes w' = votes w
        ∧ (gates w' = gates w
           ∨ ∃ gate, gates w' = <[integer_id gate := gate.2]> (gates w)))).
Proof.
  unfold set_vote_finish.
  destruct (fr_gate fr) as [gate|]; simpl; [|auto 10].
  destruct (fr_new_vote fr) as [new_vote|] eqn:Hnv; simpl.
  - destruct (double_votes _ _) as [|d ds]; simpl.
    + repeat (case_match; simpl); split_and!; try done; right; eauto.
    + split_and!; try done. left. eauto.
  - repeat (case_match; simpl); split_and!; try done; right; eauto.
Qed.

(** X7.  Whatever its arguments and the store, a call of [set_vote]
    changes at most one Vote row, and then to a vote by the caller with
    the new state and the time of the call; it changes at most one Gate
    row; it leaves the OWNERS files and the cache alone. *)
Theorem set_vote_footprint feature gtype new_state set_by_email gate_id
    now w :
  let w' := (set_vote feature gtype new_state set_by_email gate_id
                      now w).2 in
  (votes w' = votes w
   ∨ ∃ k v, votes w' = <[k := v]> (votes w) ∧ state v = new_state
            ∧ set_on v = now ∧ set_by v = set_by_email)
  ∧ (gates w' = gates w
     ∨ ∃ gate, gates w' = <[integer_id gate := gate.2]> (gates w))
  ∧ owners_files w' = owners_files w ∧ cache w' = cache w.
Proof.
  pose proof (set_vote_lookup_cases feature gtype new_state set_by_email
                gate_id now w) as Hlook.
  unfold set_vote.
  destruct (set_vote_lookup _ _ _ _ _ _ _) as [[r|fr] w1]; simpl.
  - destruct Hlook as (-> & -> & -> & ->). auto.
  - destruct Hlook as (-> & _ & _ & Hs & Hn & He & Hnv & Hex & _ & _).
    pose proof (set_vote_write_cases fr w) as Hwrite.
    destruct (set_vote_write fr w) as [fr' w2]. simpl in Hwrite.
    destruct Hwrite as (Hg2 & Ho2 & Hc2 & _ & _ & _ & _ & Hwrite).
    pose proof (set_vote_finish_cases fr' w2) as Hfin.
    destruct (set_vote_finish fr' w2) as [r w']. simpl in *.
    destruct Hfin as (-> & -> & Hfin). rewrite Ho2, Hc2.
    split; [|split; [|done]].
    + destruct (fr_existing_list fr) as [|existing rest] eqn:Hlist.
      * destruct Hwrite as (Hnew & Hfresh & Hv2).
        destruct Hfin as [(nv & Hnv' & -> & _)|[-> _]].
        -- left. rewrite Hnew in Hnv'. injection Hnv' as <-.
           rewrite Hv2. simpl. by apply delete_insert_id.
        -- right. rewrite Hv2. eauto 10.
      * destruct Hwrite as (-> & Hv2).
        symmetry in Hex. apply existing_vote_by_voter in Hex as (_ & Hby & _ & _).
        destruct Hfin as [(nv & Hnv' & _)|[-> _]]; [congruence|].
        right. rewrite Hv2. eauto 10.
    + destruct Hfin as [(_ & _ & _ & ->)|[_ [->|(gate & ->)]]];
        rewrite Hg2; eauto.
Qed.

(** A call by gate id with a valid state always gets as far as the
    write. *)
Lemma set_vote_lookup_by_id feature gtype new_state set_by_email gid now w :
  is_valid_state new_state = true →
  set_vote_lookup feature gtype new_state set_by_email (Some gid) now w
  = (inr (mkFrame feature gtype new_state set_by_email (Some gid)
                  (Gate_get_by_id (Some gid) w) now
                  (Vote_get_votes (Some feature) (Some gid)
                                  (Some set_by_email) w) None), w).
Proof.
  intros Hvalid. unfold set_vote_lookup.
  destruct gtype; simpl; by rewrite Hvalid.
Qed.

(** X8.  When the voter already has a vote on the gate, a call that names
    the gate by id overwrites the first of these votes in place with the
    new state and the time of the call: no row is added, and the row
    keeps its feature, gate and voter. *)
Theorem set_vote_overwrites_existing feature gtype new_state set_by_email
    gid now w existing rest :
  is_valid_state new_state = true →
  Vote_get_votes (Some feature) (Some gid) (Some set_by_email) w
    = existing :: rest →
  let w' := (set_vote feature gtype new_state set_by_email (Some gid)
                      now w).2 in
  votes w' = <[integer_id existing :=
                 mkVote feature (Some gid) (gate_type existing.2)
                        new_state now set_by_email]> (votes w)
  ∧ dom (votes w') = dom (votes w).
Proof.
  intros Hvalid Hq.
  destruct (existing_vote_by_voter _ _ _ _ _ _ Hq)
    as (Hstored & Hby & Hfeat & Hgate). simpl in Hgate.
  unfold set_vote. rewrite set_vote_lookup_by_id by done.
  set (fr := mkFrame _ _ _ _ _ _ _ _ _).
  pose proof (set_vote_write_cases fr w) as Hwrite.
  destruct (set_vote_write fr w) as [fr' w2]. simpl in Hwrite.
  rewrite Hq in Hwrite.
  destruct Hwrite as (_ & _ & _ & _ & _ & _ & _ & -> & Hv2).
  pose proof (set_vote_finish_cases fr w2) as Hfin.
  destruct (set_vote_finish fr w2) as [r w']. simpl in *.
  destruct Hfin as (_ & _ & [(nv & [=] & _)|[-> _]]).
  rewrite Hv2, Hby, Hfeat, Hgate. split; [done|].
  apply dom_insert_lookup_L. by rewrite Hstored.
Qed.

(** The votes of a gate as the last part of a call reads them depend on
    the Vote rows only. *)
Lemma Vote_get_votes_votes feature gid setter w w' :
  votes w' = votes w →
  Vote_get_votes feature gid setter w' = Vote_get_votes feature gid setter w.
Proof. intros Hv. unfold Vote_get_votes. by rewrite Hv. Qed.

Lemma update_gate_approval_state_facts (gate : entity Gate.t)
    (votes : list (entity Vote)) :
  let updated := (update_gate_approval_state gate votes).1 in
  Gate.state updated.2
  = _calc_gate_state (snd <$> votes)
      (from_option rule ONE_LGTM
         (APPROVAL_FIELDS_BY_ID !! Gate.gate_type gate.2))
  ∧ integer_id updated = integer_id gate
  ∧ ((update_gate_approval_state gate votes).2 = false → updated = gate).
Proof.
  unfold update_gate_approval_state. case_decide as Hs; simpl; auto.
  split_and!; done.
Qed.

(** When the last part of a call does not back a new vote out, it leaves
    the Vote rows alone and the gate with the state its votes give,
    provided the SLO recorder keeps the key and the state of the gate. *)
Lemma set_vote_finish_recomputes (fr : frame) (w : World) gid g :
  fr_gate fr = Some (gid, g) →
  gates w !! gid = Some g →
  fr_new_vote fr = None
  ∨ double_votes fr (Vote_get_votes None (Some gid) None w) = [] →
  (∀ gate vs old,
     integer_id (record_vote gate vs old).1 = integer_id gate
     ∧ Gate.state (record_vote gate vs old).1.2 = Gate.state gate.2) →
  let result := (set_vote_finish fr w).1 in
  let w' := (set_vote_finish fr w).2 in
  votes w' = votes w
  ∧ ∃ g', gates w' !! gid = Some g'
      ∧ Gate.state g'
        = _calc_gate_state (snd <$> Vote_get_votes None (Some gid) None w)
            (from_option rule ONE_LGTM
               (APPROVAL_FIELDS_BY_ID !! Gate.gate_type g))
      ∧ (result = Return None ∨ result = Return (Some (Gate.state g'))).
Proof.
  intros Hgate Hstored Hkeep Hslo. unfold set_vote_finish. rewrite Hgate.
  cbn [integer_id fst snd].
  set (vs := Vote_get_votes None (Some gid) None w) in *.
  assert (Hgo : match fr_new_vote fr, double_votes fr vs with
                | Some new_vote, _ :: _ => False
                | _, _ => True
                end).
  { destruct Hkeep as [-> | ->]; [done|]. by destruct (fr_new_vote fr). }
  pose proof (update_gate_approval_state_facts (gid, g) vs) as Hup.
  destruct (update_gate_approval_state (gid, g) vs) as [gate1 changed].
  simpl in Hup. destruct Hup as (Hst1 & Hid1 & Hsame).
  pose proof (Hslo gate1 vs (Gate.state g)) as [Hid2 Hst2].
  destruct (record_vote gate1 vs (Gate.state g)) as [gate2 slo]. simpl in *.
  assert (Hres :
    (let '(r, w') :=
       if changed || slo
       then (Return (Some (Gate.state gate2.2)), put_gate gate2 w)
       else (Return None, w) in
     votes w' = votes w
     ∧ ∃ g', gates w' !! gid = Some g'
         ∧ Gate.state g'
           = _calc_gate_state (snd <$> vs)
               (from_option rule ONE_LGTM
                  (APPROVAL_FIELDS_BY_ID !! Gate.gate_type g))
         ∧ (r = Return None ∨ r = Return (Some (Gate.state g'))))).
  { destruct (changed || slo) eqn:Hor; simpl.
    - split; [done|]. exists gate2.2. rewrite Hid2, Hid1. simpl.
      rewrite lookup_insert_eq. split_and!; [done|congruence|by right].
    - apply orb_false_elim in Hor as [-> _]. rewrite Hsame in Hst1 by done.
      split; [done|]. exists g. split_and!; [done|done|by left]. }
  destruct (fr_new_vote fr) as [nv|]; [destruct (double_votes fr vs)|];
    try done;
    by destruct (if changed || slo then _ else _).
Qed.

(** X9.  A call that names an existing gate by id with a valid state
    records the vote and leaves the gate with the state that
    [_calc_gate_state] gives for the votes then stored for the gate; what
    it returns is that state or [None].  This needs the SLO recorder to
    keep the key and the state of the gate it is given, and the votes the
    voter already has on the gate to be filed under the feature of the
    call. *)
Theorem set_vote_gate_state_agrees feature gtype new_state set_by_email gid
    now w g :
  gates w !! gid = Some g →
  is_valid_state new_state = true →
  (∀ k v, votes w !! k = Some v → gate_id v = Some gid →
          set_by v = set_by_email → feature_id v = feature) →
  (∀ gate vs old,
     integer_id (record_vote gate vs old).1 = integer_id gate
     ∧ Gate.state (record_vote gate vs old).1.2 = Gate.state gate.2) →
  let result := (set_vote feature gtype new_state set_by_email (Some gid)
                          now w).1 in
  let w' := (set_vote feature gtype new_state set_by_email (Some gid)
                      now w).2 in
  (∃ k v, votes w' !! k = Some v ∧ gate_id v = Some gid
          ∧ set_by v = set_by_email ∧ state v = new_state ∧ set_on v = now)
  ∧ ∃ g', gates w' !! gid = Some g'
      ∧ Gate.state g'
        = _calc_gate_state (snd <$> Vote_get_votes None (Some gid) None w')
            (from_option rule ONE_LGTM
               (APPROVAL_FIELDS_BY_ID !! Gate.gate_type g))
      ∧ (result = Return None ∨ result = Return (Some (Gate.state g'))).
Proof.
  intros Hstored Hvalid Hfiled Hslo.
  unfold set_vote. rewrite set_vote_lookup_by_id by done.
  rewrite (Gate_get_by_id_stored _ _ _ Hstored).
  set (fr := mkFrame _ _ _ _ _ _ _ _ _).
  pose proof (set_vote_write_cases fr w) as Hwrite.
  destruct (set_vote_write fr w) as [fr' w2]. simpl in Hwrite.
  destruct Hwrite as (Hg2 & _ & _ & _ & Hgate' & Hby' & Hnow' & Hwrite).
  assert (Hrow : ∃ k v, votes w2 !! k = Some v ∧ gate_id v = Some gid
            ∧ set_by v = set_by_email ∧ state v = new_state ∧ set_on v = now).
  { destruct (Vote_get_votes _ _ _ w) as [|existing rest] eqn:Hq.
    - destruct Hwrite as (_ & _ & ->). eexists _, _.
      rewrite lookup_insert_eq. split_and!; done.
    - destruct Hwrite as (_ & ->).
      destruct (existing_vote_by_voter _ _ _ _ _ _ Hq) as (_ & Hby & _ & Hg).
      eexists _, _. rewrite lookup_insert_eq. split_and!; done. }
  assert (Hkeep : fr_new_vote fr' = None
            ∨ double_votes fr' (Vote_get_votes None (Some gid) None w2) = []).
  { destruct (Vote_get_votes _ _ _ w) as [|existing rest] eqn:Hq.
    - right. destruct Hwrite as (_ & Hfresh & Hv2).
      destruct (double_votes _ _) as [|[k v] ds] eqn:Hd; [done|].
      assert (Hin : (k, v) ∈ double_votes fr'
                (Vote_get_votes None (Some gid) None w2))
        by (rewrite Hd; left).
      unfold double_votes, Vote_get_votes in Hin.
      rewrite !list_elem_of_filter, elem_of_map_to_list in Hin.
      destruct Hin as ((Hby & Hlt) & (_ & Hg & _) & Hk). simpl in *.
      rewrite Hby', Hnow' in *. simpl in *.
      rewrite Hv2 in Hk. apply lookup_insert_Some in Hk as [[<- <-]|[Hne Hk]].
      + simpl in Hlt. lia.
      + assert (Hin : (k, v) ∈ Vote_get_votes (Some feature) (Some gid)
                                 (Some set_by_email) w).
        { unfold Vote_get_votes.
          rewrite list_elem_of_filter, elem_of_map_to_list. simpl.
          split_and!; eauto. }
        rewrite Hq in Hin. by apply elem_of_nil in Hin.
    - left. by destruct Hwrite as (-> & _). }
  destruct (set_vote_finish_recomputes fr' w2 gid g)
    as (Hv' & g' & Hg' & Hst & Hr); try done.
  { by rewrite Hg2. }
  destruct (set_vote_finish fr' w2) as [r w']. simpl in *.
  split.
  - by rewrite Hv'.
  - exists g'. rewrite (Vote_get_votes_votes _ _ _ _ _ Hv'). done.
Qed.
End coordinator_more.

(** ** More on the approver resolver *)

Section resolver_more.
Context `{CE : core_enums} `{EV : collaborators}.

Lemma fetch_owners_stores url now w :
  let w' := (fetch_owners url now w).2 in
  votes w' = votes w ∧ gates w' = gates w ∧ cache w' = cache w.
Proof.
  unfold fetch_owners.
  destruct (get_raw_owner_file url w) as [f|]; simpl;
    [destruct (is_fresh now f); simpl; [done|]|];
    destruct (decide _); simpl; done.
Qed.

Lemma resolve_approvers_stores gate_type afd now w :
  let w' := (resolve_approvers gate_type afd now w).2 in
  votes w' = votes w ∧ gates w' = gates w.
Proof.
  unfold resolve_approvers.
  destruct (approvers afd) as [source|emails]; simpl.
  - case_decide; simpl; [done|].
    pose proof (fetch_owners_stores source now w) as Hf.
    destruct (fetch_owners source now w) as [[owners|e] w0]; simpl in *; tauto.
  - done.
Qed.

Lemma get_approvers_stores gate_type now w :
  let w' := (get_approvers gate_type now w).2 in
  votes w' = votes w ∧ gates w' = gates w.
Proof.
  unfold get_approvers.
  destruct (APPROVAL_FIELDS_BY_ID !! gate_type) as [afd|]; simpl; [|done].
  destruct (rediscache_get _ _ _) as [[|email emails]|]; simpl; try done;
    apply resolve_approvers_stores.
Qed.

(** X10.  After a fetch that the endpoint answered with status 200, the
    document is stored, and as long as the stored copy counts as fresh a
    further fetch of the same URL gives the same result without sending a
    request: it only logs that the fresh copy is used. *)
Theorem fetch_owners_then_fresh url now later w :
  status_code (requests_get url) = 200 →
  (∀ f, get_raw_owner_file url w = Some f → is_fresh now f = false) →
  is_fresh later (mkOwnersFile url (content (requests_get url)) now) = true →
  let first := fetch_owners url now w in
  get_raw_owner_file url first.2
  = Some (mkOwnersFile url (content (requests_get url)) now)
  ∧ fetch_owners url later first.2
    = (first.1, emit (Logged "info" "Using fresh owners_file") first.2).
Proof.
  intros Hok Hstale Hfresh. simpl.
  assert (Hfirst : fetch_owners url now w
    = (decode_raw_owner_content (content (requests_get url)),
       add_owner_file (mkOwnersFile url (content (requests_get url)) now)
         (emit (HttpGet url) w))).
  { unfold fetch_owners.
    destruct (get_raw_owner_file url w) as [f|] eqn:Hf.
    - rewrite (Hstale f eq_refl). by rewrite decide_True.
    - by rewrite decide_True. }
  rewrite Hfirst. simpl.
  assert (Hstored : get_raw_owner_file url
            (add_owner_file (mkOwnersFile url (content (requests_get url)) now)
               (emit (HttpGet url) w))
          = Some (mkOwnersFile url (content (requests_get url)) now)).
  { unfold get_raw_owner_file, add_owner_file. simpl. apply lookup_insert_eq. }
  split; [done|].
  unfold fetch_owners at 1. rewrite Hstored, Hfresh. done.
Qed.

(** X11.  When the endpoint does not answer 200, [fetch_owners] does not
    raise on that account: with a stored copy of the document it answers
    from that copy, whose content stays stored; without one it answers
    with the empty list and stores nothing. *)
Theorem fetch_owners_endpoint_down url now w :
  status_code (requests_get url) ≠ 200 →
  let result := (fetch_owners url now w).1 in
  let w' := (fetch_owners url now w).2 in
  match get_raw_owner_file url w with
  | Some f =>
      result = decode_raw_owner_content (raw_content f)
      ∧ ∃ f', get_raw_owner_file url w' = Some f'
              ∧ raw_content f' = raw_content f
  | None => result = Return [] ∧ owners_files w' = owners_files w
  end.
Proof.
  intros Hdown. unfold fetch_owners.
  destruct (get_raw_owner_file url w) as [f|] eqn:Hf; simpl.
  - destruct (is_fresh now f); simpl.
    + split; [done|]. by exists f.
    + rewrite decide_False by done. simpl. split; [done|].
      eexists. split.
      * unfold get_raw_owner_file, add_owner_file. simpl.
        apply lookup_insert_eq.
      * reflexivity.
  - rewrite decide_False by done. done.
Qed.

(** X12.  [get_approvers] never changes a Vote row or a Gate row,
    whichever source the approvers come from and whether or not the
    lookup raises. *)
Theorem get_approvers_leaves_votes_and_gates gate_type now w :
  votes (get_approvers gate_type now w).2 = votes w
  ∧ gates (get_approvers gate_type now w).2 = gates w.
Proof. apply get_approvers_stores. Qed.

(** X13.  A non-empty approver list that a call had to resolve is served
    from the cache for the next hour: a later call for the same gate type
    within [CACHE_EXPIRATION] of the first returns the same list and
    leaves everything as it is, so it sends no request.  From then on the
    entry is gone and a call resolves again. *)
Theorem get_approvers_memoized gate_type afd now w email emails w1 later :
  APPROVAL_FIELDS_BY_ID !! gate_type = Some afd →
  rediscache_get (cache_key gate_type) now w = None →
  get_approvers gate_type now w = (Return (email :: emails), w1) →
  (later < now + CACHE_EXPIRATION →
     get_approvers gate_type later w1 = (Return (email :: emails), w1))
  ∧ (now + CACHE_EXPIRATION ≤ later →
     get_approvers gate_type later w1
     = resolve_approvers gate_type afd later w1).
Proof.
  intros Hafd Hmiss Hfirst.
  unfold get_approvers in Hfirst. rewrite Hafd, Hmiss in Hfirst.
  apply resolve_approvers_cache in Hfirst.
  unfold get_approvers, rediscache_get. rewrite Hafd, Hfirst. split; intros ?.
  - by rewrite decide_True.
  - by rewrite decide_False by lia.
Qed.

(** X14.  For a gate type whose approvers are a hard-coded list or are
    stored with the gate definition, [get_approvers] sends no request and
    writes no log line, and on a cache miss its answer is that list. *)
Theorem get_approvers_without_request gate_type afd now w :
  APPROVAL_FIELDS_BY_ID !! gate_type = Some afd →
  approvers afd = inl IN_NDB ∨ (∃ listed, approvers afd = inr listed) →
  trace (get_approvers gate_type now w).2 = trace w
  ∧ (rediscache_get (cache_key gate_type) now w = None →
     (get_approvers gate_type now w).1
     = Return match approvers afd with
              | inl _ => gd_approvers (get_gate_def gate_type)
              | inr listed => listed
              end).
Proof.
  intros Hafd Hsource. unfold get_approvers. rewrite Hafd.
  assert (Hres : trace (resolve_approvers gate_type afd now w).2 = trace w
            ∧ (resolve_approvers gate_type afd now w).1
              = Return match approvers afd with
                       | inl _ => gd_approvers (get_gate_def gate_type)
                       | inr listed => listed
                       end).
  { unfold resolve_approvers.
    destruct Hsource as [-> | [listed ->]]; [|done].
    by rewrite decide_True. }
  destruct (rediscache_get _ _ _) as [[|cached rest]|]; simpl; try tauto;
    split; try tauto; done.
Qed.
End resolver_more.

(** ** More on [auto_assign_reviewer] *)

Section assignment_more.
Context `{CE : core_enums} `{EV : collaborators}.

Lemma Gate_query_feature feature w e :
  e ∈ Gate_query feature None w
  ↔ gates w !! integer_id e = Some e.2 ∧ Gate.feature_id e.2 = feature.
Proof.
  unfold Gate_query. destruct e as [k g]. rewrite list_elem_of_filter.
  split.
  - intros [[Hf _] Hin]. by apply elem_of_map_to_list in Hin.
  - intros [Hk Hf]. split; [done|]. by apply elem_of_map_to_list.
Qed.

Lemma previously_assigned_some gate afd all_gates other_gate :
  previously_assigned gate afd all_gates = Return (Some other_gate) →
  other_gate ∈ all_gates
  ∧ ∃ other_afd,
      APPROVAL_FIELDS_BY_ID !! Gate.gate_type other_gate.2 = Some other_afd
      ∧ same_review_team gate afd other_gate other_afd.
Proof.
  induction all_gates as [|g rest IH]; simpl; [done|].
  destruct (APPROVAL_FIELDS_BY_ID !! Gate.gate_type g.2) as [oafd|] eqn:Ho;
    [|done].
  case_decide as Hc.
  - intros [= <-]. split; [left|]. by exists oafd.
  - intros [Hin Hrest]%IH. split; [by right|done].
Qed.

Lemma previously_assigned_none gate afd all_gates :
  previously_assigned gate afd all_gates = Return None
  ↔ ∀ other_gate, other_gate ∈ all_gates →
      ∃ other_afd,
        APPROVAL_FIELDS_BY_ID !! Gate.gate_type other_gate.2 = Some other_afd
        ∧ ¬ same_review_team gate afd other_gate other_afd.
Proof.
  induction all_gates as [|g rest IH]; simpl.
  - split; [|done]. by intros _ ? ?%elem_of_nil.
  - destruct (APPROVAL_FIELDS_BY_ID !! Gate.gate_type g.2) as [oafd|] eqn:Ho.
    + case_decide as Hc.
      * split; [done|]. intros Hall.
        destruct (Hall g) as (x & Hx & Hn); [left|].
        rewrite Ho in Hx. injection Hx as <-. by destruct Hn.
      * rewrite IH. split.
        -- intros Hall o [->|Hin]%elem_of_cons; [by exists oafd|by apply Hall].
        -- intros Hall o Hin. apply Hall. by right.
    + split; [done|]. intros Hall. destruct (Hall g) as (? & ? & _); [left|].
      congruence.
Qed.

Lemma previously_assigned_found gate afd all_gates :
  (∀ other_gate, other_gate ∈ all_gates →
     is_Some (APPROVAL_FIELDS_BY_ID !! Gate.gate_type other_gate.2)) →
  (∃ other_gate other_afd, other_gate ∈ all_gates
     ∧ APPROVAL_FIELDS_BY_ID !! Gate.gate_type other_gate.2 = Some other_afd
     ∧ same_review_team gate afd other_gate other_afd) →
  ∃ other_gate, previously_assigned gate afd all_gates
                = Return (Some other_gate).
Proof.
  intros Hknown Hsome.
  destruct (previously_assigned gate afd all_gates) as [[o|]|e] eqn:Hp.
  - by exists o.
  - rewrite previously_assigned_none in Hp.
    destruct Hsome as (o & oafd & Hin & Ho & Hteam).
    destruct (Hp o Hin) as (oafd' & Ho' & Hn). congruence.
  - exfalso. clear Hsome. induction all_gates as [|g rest IH]; simpl in Hp;
      [done|].
    destruct (Hknown g) as [oafd Ho]; [left|]. rewrite Ho in Hp.
    case_decide; [done|]. apply IH; [|done].
    intros o Hin. apply Hknown. by right.
Qed.


(** X16.  When some other gate of the feature belongs to the same team,
    has the same rule and has assignees, and every gate of the feature
    is of a known gate type, [auto_assign_reviewer] gives the gate the
    assignees of such a gate and does nothing else: it sends no request
    and writes no log line. *)
Theorem auto_assign_reviewer_reuses (gate : entity Gate.t) (w : World) afd
    k g other_afd :
  APPROVAL_FIELDS_BY_ID !! Gate.gate_type gate.2 = Some afd →
  (∀ k' g', gates w !! k' = Some g' →
     Gate.feature_id g' = Gate.feature_id gate.2 →
     is_Some (APPROVAL_FIELDS_BY_ID !! Gate.gate_type g')) →
  gates w !! k = Some g →
  Gate.feature_id g = Gate.feature_id gate.2 →
  APPROVAL_FIELDS_BY_ID !! Gate.gate_type g = Some other_afd →
  same_review_team gate afd (k, g) other_afd →
  ∃ other_gate other_afd',
    gates w !! integer_id other_gate = Some other_gate.2
    ∧ Gate.feature_id other_gate.2 = Gate.feature_id gate.2
    ∧ APPROVAL_FIELDS_BY_ID !! Gate.gate_type other_gate.2 = Some other_afd'
    ∧ same_review_team gate afd other_gate other_afd'
    ∧ auto_assign_reviewer gate w
      = (Return (),
         put_gate (set_assignee_emails gate
                     (Gate.assignee_emails other_gate.2)) w).
Proof.
  intros Hafd Hknown Hk Hfeat Ho Hteam.
  destruct (previously_assigned_found gate afd
              (Gate_query (Gate.feature_id gate.2) None w)) as [o Hp].
  - intros o [Ho1 Ho2]%Gate_query_feature. eauto.
  - exists (k, g), other_afd. split_and!; [|done..].
    by apply Gate_query_feature.
  - pose proof (previously_assigned_some _ _ _ _ Hp)
      as ([Ho1 Ho2]%Gate_query_feature & oafd & Hoafd & Hsame).
    exists o, oafd. split_and!; try done.
    unfold auto_assign_reviewer. by rewrite Hafd, Hp.
Qed.

(** X17.  With no gate to take assignees from, the gate stays unassigned
    and the call returns normally whenever the approvers of the gate type
    are not stored with the gate definition, or the gate definition has
    no rotation URL, or the rotation endpoint does not answer 200; only
    in the last case is a request sent. *)
Theorem auto_assign_reviewer_stays_unassigned (gate : entity Gate.t)
    (w : World) afd :
  APPROVAL_FIELDS_BY_ID !! Gate.gate_type gate.2 = Some afd →
  (∀ k g, gates w !! k = Some g →
     Gate.feature_id g = Gate.feature_id gate.2 →
     ∃ other_afd, APPROVAL_FIELDS_BY_ID !! Gate.gate_type g = Some other_afd
                  ∧ ¬ same_review_team gate afd (k, g) other_afd) →
  approvers afd ≠ inl IN_NDB
  ∨ rotation_url (get_gate_def (Gate.gate_type gate.2)) = None
  ∨ rotation_url (get_gate_def (Gate.gate_type gate.2)) = Some ""
  ∨ (∃ rotation,
       rotation_url (get_gate_def (Gate.gate_type gate.2)) = Some rotation
       ∧ status_code (requests_get rotation) ≠ 200) →
  (auto_assign_reviewer gate w).1 = Return ()
  ∧ gates (auto_assign_reviewer gate w).2 = gates w
  ∧ (approvers afd ≠ inl IN_NDB
     ∨ rotation_url (get_gate_def (Gate.gate_type gate.2)) = None
     ∨ rotation_url (get_gate_def (Gate.gate_type gate.2)) = Some "" →
     (auto_assign_reviewer gate w).2 = w).
Proof.
  intros Hafd Hnone Hwhy.
  assert (Hp : previously_assigned gate afd
                 (Gate_query (Gate.feature_id gate.2) None w) = Return None).
  { apply previously_assigned_none. intros [k g] [? ?]%Gate_query_feature.
    by apply Hnone. }
  unfold auto_assign_reviewer. rewrite Hafd, Hp.
  case_decide as Happ; [done|].
  destruct Hwhy as [?|[Hr|[Hr|(rotation & Hr & Hst)]]]; [done|..];
    rewrite Hr; [done|done|].
  destruct rotation as [|c rest]; [done|]. rewrite decide_True by done.
  split_and!; [done|done|].
  intros [?|[[=]|[=]]]. done.
Qed.

(** X18.  With no gate to take assignees from, approvers stored with the
    gate definition, a rotation endpoint that answers 200 and a body that
    parses to a value with an emails entry, the gate is stored with
    these emails as its assignees and its other fields unchanged. *)
Theorem auto_assign_reviewer_assigns_rotation (gate : entity Gate.t)
    (w : World) afd rotation parsed emails :
  APPROVAL_FIELDS_BY_ID !! Gate.gate_type gate.2 = Some afd →
  (∀ k g, gates w !! k = Some g →
     Gate.feature_id g = Gate.feature_id gate.2 →
     ∃ other_afd, APPROVAL_FIELDS_BY_ID !! Gate.gate_type g = Some other_afd
                  ∧ ¬ same_review_team gate afd (k, g) other_afd) →
  approvers afd = inl IN_NDB →
  rotation_url (get_gate_def (Gate.gate_type gate.2)) = Some rotation →
  rotation ≠ "" →
  status_code (requests_get rotation) = 200 →
  json_loads (content (requests_get rotation)) = Some parsed →
  json_contains "emails" parsed = Return true →
  json_getitem parsed "emails" = Return emails →
  (auto_assign_reviewer gate w).1 = Return ()
  ∧ gates (auto_assign_reviewer gate w).2 !! integer_id gate
    = Some (Gate.mk (Gate.feature_id gate.2) (Gate.gate_type gate.2)
                    (Gate.state gate.2) emails (Gate.timestamps gate.2))
  ∧ HttpGet rotation ∈ trace (auto_assign_reviewer gate w).2.
Proof.
  intros Hafd Hnone Happ Hr Hne Hst Hjs Hin Hget.
  assert (Hp : previously_assigned gate afd
                 (Gate_query (Gate.feature_id gate.2) None w) = Return None).
  { apply previously_assigned_none. intros [k g] [? ?]%Gate_query_feature.
    by apply Hnone. }
  unfold auto_assign_reviewer, parse_response.
  rewrite Hafd, Hp, Happ. rewrite decide_False by (by intros []).
  rewrite Hr. destruct rotation as [|c rest]; [done|].
  rewrite Hst. rewrite decide_False by (by intros []).
  rewrite Hjs, Hin, Hget. simpl. split_and!; [done| |].
  - apply lookup_insert_eq.
  - set_solver.
Qed.

(** X19.  For a gate whose type the catalog does not know,
    [auto_assign_reviewer] raises [KeyError] and changes nothing, whereas
    [update_gate_approval_state] treats such a gate as ONE_LGTM. *)
Theorem auto_assign_reviewer_unknown_gate_type `{RM : review_models}
    (gate : entity Gate.t) (votes : list (entity Vote)) (w : World) :
  is_valid_gate_type (Gate.gate_type gate.2) = false →
  auto_assign_reviewer gate w = (Raise (KeyError (Gate.gate_type gate.2)), w)
  ∧ Gate.state (update_gate_approval_state gate votes).1.2
    = _calc_gate_state (snd <$> votes) ONE_LGTM.
Proof.
  intros Hinv. unfold is_valid_gate_type in Hinv.
  apply bool_decide_eq_false in Hinv. apply not_elem_of_dom in Hinv.
  unfold auto_assign_reviewer, update_gate_approval_state. rewrite Hinv. simpl.
  split; [done|]. by case_decide.
Qed.
End assignment_more.

(** ** The OWNERS parser *)

Section parser.
Implicit Types (c a : Ascii.ascii) (s t line : string).

Lemma append_cons a s t : String a s +:+ t = String a (s +:+ t).
Proof. reflexivity. Qed.

Lemma append_nil t : EmptyString +:+ t = t.
Proof. reflexivity. Qed.

Lemma split_nonempty c s : split c s ≠ [].
Proof.
  destruct s as [|a s]; simpl; [done|].
  case_decide; [done|]. by destruct (split c s).
Qed.

Lemma split_app c s t :
  split c (s +:+ String c t) = (split c s ++ split c t)%list.
Proof.
  induction s as [|a s IH].
  - rewrite append_nil. simpl. by rewrite decide_True.
  - rewrite append_cons. simpl. case_decide.
    + by rewrite IH.
    + rewrite IH. pose proof (split_nonempty c s).
      by destruct (split c s).
Qed.

Lemma split_absent c s : contains c s = false → split c s = [s].
Proof.
  induction s as [|a s IH]; simpl; [done|].
  case_decide; [done|]. intros Hs. by rewrite IH.
Qed.

Lemma split_pieces c s piece :
  piece ∈ split c s → contains c piece = false.
Proof.
  revert piece. induction s as [|a s IH]; simpl; intros piece.
  - by intros ->%list_elem_of_singleton.
  - case_decide.
    + intros [->|Hin]%elem_of_cons; [done|by apply IH].
    + pose proof (split_nonempty c s).
      destruct (split c s) as [|p ps]; [done|].
      intros [->|Hin]%elem_of_cons.
      * simpl. rewrite decide_False by done. apply IH. left.
      * apply IH. by right.
Qed.

Lemma split_join c pieces :
  pieces ≠ [] →
  (∀ piece, piece ∈ pieces → contains c piece = false) →
  split c (join (String c EmptyString) pieces) = pieces.
Proof.
  induction pieces as [|p [|q rest] IH]; [done|..]; intros _ Hall.
  - simpl. apply split_absent, Hall. left.
  - change (join (String c EmptyString) (p :: q :: rest))
      with (p +:+ String c (join (String c EmptyString) (q :: rest))).
    rewrite split_app, IH; [|done|].
    + rewrite split_absent; [done|]. apply Hall. left.
    + intros piece Hin. apply Hall. by right.
Qed.

Lemma contains_before c a s :
  contains c (before a s) = true → contains c s = true.
Proof.
  induction s as [|b s IH]; simpl; [done|].
  destruct (decide (b = a)); simpl; [done|]. destruct (decide (b = c)); auto.
Qed.

Lemma before_absent c s : contains c (before c s) = false.
Proof.
  induction s as [|b s IH]; simpl; [done|].
  case_decide; simpl; [done|]. by rewrite decide_False.
Qed.

Lemma before_app c s t : before c (s +:+ String c t) = before c s.
Proof.
  induction s as [|b s IH].
  - rewrite append_nil. simpl. by rewrite decide_True.
  - rewrite append_cons. simpl. case_decide; [done|]. by rewrite IH.
Qed.

Lemma contains_app c s t : contains c (s +:+ String c t) = true.
Proof.
  induction s as [|b s IH].
  - rewrite append_nil. simpl. by rewrite decide_True.
  - rewrite append_cons. simpl. by case_decide.
Qed.

Lemma contains_lstrip c s :
  contains c (lstrip s) = true → contains c s = true.
Proof.
  induction s as [|b s IH]; simpl; [done|].
  destruct (isspace b); simpl; [|done]. destruct (decide (b = c)); auto.
Qed.

Lemma contains_rstrip c s :
  contains c (rstrip s) = true → contains c s = true.
Proof.
  induction s as [|b s IH]; simpl; [done|].
  destruct (rstrip s) as [|k ks] eqn:Hr.
  - destruct (isspace b); simpl; [done|]. by destruct (decide (b = c)).
  - simpl in *. destruct (decide (b = c)); [done|]. exact IH.
Qed.

Lemma contains_strip c s :
  contains c (strip s) = true → contains c s = true.
Proof. intros ?%contains_rstrip. by apply contains_lstrip. Qed.

(** A string is clean in front when it does not begin with whitespace. *)
Lemma lstrip_clean s :
  match s with String a _ => isspace a = false | EmptyString => True end →
  lstrip s = s.
Proof. destruct s as [|a s]; simpl; [done|]. by intros ->. Qed.

Lemma lstrip_is_clean s :
  match lstrip s with
  | String a _ => isspace a = false
  | EmptyString => True
  end.
Proof.
  induction s as [|a s IH]; simpl; [done|].
  destruct (isspace a) eqn:Ha; [done|]. simpl. done.
Qed.

Lemma rstrip_keeps_clean s :
  match s with String a _ => isspace a = false | EmptyString => True end →
  match rstrip s with
  | String a _ => isspace a = false
  | EmptyString => True
  end.
Proof.
  destruct s as [|a s]; simpl; [done|]. intros Ha.
  destruct (rstrip s); [by rewrite Ha|done].
Qed.

Lemma rstrip_idemp s : rstrip (rstrip s) = rstrip s.
Proof.
  induction s as [|a s IH]; simpl; [done|].
  destruct (rstrip s) as [|k ks] eqn:Hr.
  - destruct (isspace a) eqn:Ha; simpl; [done|]. by rewrite Ha.
  - simpl in *. rewrite IH. done.
Qed.

Lemma strip_idemp s : strip (strip s) = strip s.
Proof.
  unfold strip. rewrite lstrip_clean.
  - apply rstrip_idemp.
  - apply rstrip_keeps_clean, lstrip_is_clean.
Qed.

Lemma owner_of_line_owner line owner :
  owner_of_line line = Some owner →
  contains "@" owner = true ∧ contains "." owner = true
  ∧ contains "#" owner = false ∧ strip owner = owner
  ∧ ∀ c, contains c line = false → contains c owner = false.
Proof.
  unfold owner_of_line.
  set (cut := if contains "#" line then before "#" line else line).
  destruct (contains "@" (strip cut) && contains "." (strip cut)) eqn:Hat;
    [|done].
  intros [= <-]. apply andb_prop in Hat as [Hat Hdot].
  split_and!; [done|done| |apply strip_idemp|].
  - destruct (contains "#" (strip cut)) eqn:Hh; [|done].
    apply contains_strip in Hh. unfold cut in Hh.
    destruct (contains "#" line) eqn:Hl; [|congruence].
    by rewrite before_absent in Hh.
  - intros c Hc. destruct (contains c (strip cut)) eqn:Hh; [|done].
    apply contains_strip in Hh. unfold cut in Hh.
    destruct (contains "#" line); [apply contains_before in Hh|]; congruence.
Qed.

Lemma owner_of_line_fixed owner :
  contains "@" owner = true → contains "." owner = true →
  contains "#" owner = false → strip owner = owner →
  owner_of_line owner = Some owner.
Proof.
  intros Hat Hdot Hh Hs. unfold owner_of_line.
  by rewrite Hh, Hs, Hat, Hdot.
Qed.

(** X20.  Every owner that [decode_raw_owner_content] returns contains
    an at sign and a dot, contains no comment marker and no line break,
    and has no whitespace at either end; the call raises only when the
    decoding of the raw content does. *)
Theorem decode_raw_owner_content_owners
    (b64decode_utf8 : string → outcome string) (raw_content : string) :
  match decode_raw_owner_content_with b64decode_utf8 raw_content with
  | Return owners =>
      ∃ decoded, b64decode_utf8 raw_content = Return decoded
        ∧ ∀ owner, owner ∈ owners →
            contains "@" owner = true ∧ contains "." owner = true
            ∧ contains "#" owner = false ∧ contains "010" owner = false
            ∧ strip owner = owner ∧ owner ≠ EmptyString
  | Raise e => b64decode_utf8 raw_content = Raise e
  end.
Proof.
  unfold decode_raw_owner_content_with.
  destruct (b64decode_utf8 raw_content) as [decoded|e]; [|done].
  exists decoded. split; [done|]. intros owner Hin.
  unfold owners_of_text in Hin. apply list_elem_of_omap in Hin
    as (line & Hline & Howner).
  apply owner_of_line_owner in Howner as (Hat & Hdot & Hh & Hs & Hkeep).
  split_and!; try done.
  - apply Hkeep. by eapply split_pieces.
  - by intros ->.
Qed.

(** X21.  The lines of a document are read independently of each other:
    the owners of two texts joined by a line break are the owners of the
    first followed by the owners of the second. *)
Theorem owners_of_text_lines (s t : string) :
  owners_of_text (s +:+ String "010" t)
  = (owners_of_text s ++ owners_of_text t)%list.
Proof. unfold owners_of_text. by rewrite split_app, omap_app. Qed.

(** X22.  Writing the owners of a document one per line and reading that
    back gives the same owners. *)
Theorem owners_of_text_round_trip (decoded : string) :
  owners_of_text (join (String "010" EmptyString) (owners_of_text decoded))
  = owners_of_text decoded.
Proof.
  assert (Hall : ∀ owner, owner ∈ owners_of_text decoded →
            owner_of_line owner = Some owner
            ∧ contains "010" owner = false).
  { intros owner Hin. unfold owners_of_text in Hin.
    apply list_elem_of_omap in Hin as (line & Hline & Howner).
    apply owner_of_line_owner in Howner as (Hat & Hdot & Hh & Hs & Hkeep).
    split; [by apply owner_of_line_fixed|].
    apply Hkeep. by eapply split_pieces. }
  destruct (owners_of_text decoded) as [|o os] eqn:Ho; [done|].
  unfold owners_of_text at 1. rewrite split_join; [|done|].
  - clear Ho. induction (o :: os) as [|p ps IH]; [done|]. simpl.
    destruct (Hall p) as [-> _]; [left|]. f_equal. apply IH.
    intros q Hq. apply Hall. by right.
  - intros piece Hin. by apply Hall.
Qed.

(** X23.  What follows a comment marker on a line never matters: a line
    with a comment appended gives the owner that the line alone gives. *)
Theorem owner_of_line_comment (line comment : string) :
  owner_of_line (line +:+ String "#" comment) = owner_of_line line.
Proof.
  unfold owner_of_line. rewrite contains_app, before_app.
  destruct (contains "#" line) eqn:Hl; [done|].
  assert (before "#" line = line) as ->; [|done].
  clear comment. induction line as [|a s IH]; simpl in *; [done|].
  case_decide; [done|]. by rewrite IH.
Qed.
End parser.

(** ** Who may approve what *)

Section approvable_more.
Context `{CE : core_enums} `{EV : collaborators}.
Variable User : Type.
Variable can_admin_site : User → bool.
Variable user_email : User → string.

Lemma dict_keys_elem (ks : list Z) k : k ∈ dict_keys ks ↔ k ∈ ks.
Proof.
  induction ks as [|x ks IH]; simpl; [done|].
  rewrite !elem_of_cons, list_elem_of_filter, IH.
  destruct (decide (k = x)); tauto.
Qed.

Lemma approvable_among_facts email gate_types clock i w :
  let result := (approvable_among email gate_types clock i w).1 in
  let w' := (approvable_among email gate_types clock i w).2 in
  votes w' = votes w ∧ gates w' = gates w
  ∧ ∀ ids, result = Return ids → ∀ k, k ∈ ids → k ∈ gate_types.
Proof.
  revert i w. induction gate_types as [|gt rest IH]; intros i w; simpl.
  - split_and!; [done..|]. intros ids [= <-] k Hk. set_solver.
  - pose proof (get_approvers_stores gt (clock i) w) as Hget.
    destruct (get_approvers gt (clock i) w) as [[owners|e] w1];
      simpl in *; [|by destruct Hget].
    destruct Hget as [Hv Hg].
    specialize (IH (S i) w1).
    destruct (approvable_among email rest clock (S i) w1) as [[ids|e] w2];
      simpl in *; destruct IH as (Hv2 & Hg2 & Hids);
      (split; [congruence|]); (split; [congruence|]); [|done].
    intros ids' [= <-] k Hk. case_decide.
    + apply elem_of_union in Hk as [->%elem_of_singleton|Hk]; [left|].
      right. by eapply Hids.
    + right. by eapply Hids.
Qed.

(** X24.  Whoever asks, [fields_approvable_by] changes no Vote row and no
    Gate row, and every gate type it returns is one that
    [is_valid_gate_type] accepts.  A site admin gets exactly the valid
    gate types, and for an admin nothing is looked up: the store, the
    cache and the trace are as before. *)
Theorem fields_approvable_by_valid (user : User) (clock : nat → Z)
    (w : World) :
  let result := (fields_approvable_by User can_admin_site user_email user
                   clock w).1 in
  let w' := (fields_approvable_by User can_admin_site user_email user
               clock w).2 in
  votes w' = votes w ∧ gates w' = gates w
  ∧ (∀ ids, result = Return ids →
       ∀ k, k ∈ ids → is_valid_gate_type k = true)
  ∧ (can_admin_site user = true →
       w' = w
       ∧ ∃ ids, result = Return ids
           ∧ ∀ k, k ∈ ids ↔ is_valid_gate_type k = true).
Proof.
  unfold fields_approvable_by.
  destruct (can_admin_site user) eqn:Hadmin; simpl.
  - split_and!; [done|done| |].
    + intros ids [= <-] k Hk. unfold is_valid_gate_type.
      by apply bool_decide_eq_true.
    + intros _. split; [done|]. eexists. split; [done|]. intros k.
      unfold is_valid_gate_type. by rewrite bool_decide_eq_true.
  - pose proof (approvable_among_facts (user_email user)
        (dict_keys (gi_gate_type <$> approval_field_defs)) clock 0 w)
      as (Hv & Hg & Hids).
    split_and!; [done|done| |done].
    intros ids Hr k Hk. specialize (Hids ids Hr k Hk).
    apply dict_keys_elem, list_elem_of_fmap in Hids as (afd & -> & Hin).
    unfold is_valid_gate_type, APPROVAL_FIELDS_BY_ID.
    rewrite bool_decide_eq_true, catalog_foldl_dom. right. by exists afd.
Qed.
End approvable_more.

(** ** The further properties at concrete inputs *)

(** Two votes of the review set with different timestamps, listed in
    either order. *)
Lemma calc_gate_state_perm_witness :
  _calc_gate_state [vote_at REVIEW_REQUESTED 2 "b"; vote_at NEEDS_WORK 1 "a"]
                   ONE_LGTM
  = _calc_gate_state [vote_at NEEDS_WORK 1 "a"; vote_at REVIEW_REQUESTED 2 "b"]
                     ONE_LGTM.
Proof.
  apply calc_gate_state_perm.
  - intros [|[|i]] [|[|j]] u v Hu Hv _ _ Hsame; vm_compute in Hu, Hv;
      simplify_eq; try done; vm_compute in Hsame; discriminate.
  - apply Permutation_swap.
Defined.


(** The voter changes the vote from APPROVED to NEEDS_WORK: row 0 is
    overwritten. *)
Lemma set_vote_overwrites_existing_witness :
  votes (set_vote (EV := outage) 1 None NEEDS_WORK voter (Some 7) 5
                  one_vote_world).2
  = <[0 := mkVote 1 (Some 7) None NEEDS_WORK 5 voter]> (votes one_vote_world)
  ∧ dom (votes (set_vote (EV := outage) 1 None NEEDS_WORK voter (Some 7) 5
                         one_vote_world).2)
    = dom (votes one_vote_world).
Proof.
  apply (set_vote_overwrites_existing (EV := outage) 1 None NEEDS_WORK voter
           7 5 one_vote_world (0, mkVote 1 (Some 7) None APPROVED 1 voter) []).
  - reflexivity.
  - vm_compute. reflexivity.
Defined.

(** The first vote on gate 7. *)
Lemma set_vote_gate_state_agrees_witness :
  ∃ g', gates (set_vote (EV := outage) 1 None APPROVED voter (Some 7) 1
                        one_gate_world).2 !! 7 = Some g'
    ∧ Gate.state g'
      = _calc_gate_state
          (snd <$> Vote_get_votes None (Some 7) None
             (set_vote (EV := outage) 1 None APPROVED voter (Some 7) 1
                       one_gate_world).2)
          THREE_LGTM.
Proof.
  destruct (set_vote_gate_state_agrees (EV := outage) 1 None APPROVED voter 7
              1 one_gate_world (Gate.mk 1 GATE_API_SHIP PREPARING [] []))
    as (_ & g' & Hg' & Hstate & _).
  - reflexivity.
  - reflexivity.
  - intros k v Hk. vm_compute in Hk. discriminate.
  - intros gate vs old. split; reflexivity.
  - exists g'. split; [exact Hg'|exact Hstate].
Defined.

(** A fetch at time 0 and another within the hour. *)
Lemma fetch_owners_then_fresh_witness :
  (fetch_owners (EV := serving) API_OWNERS_URL 0 empty_world).1
  = Return ["owner@example.org"]
  ∧ fetch_owners (EV := serving) API_OWNERS_URL 60
      (fetch_owners (EV := serving) API_OWNERS_URL 0 empty_world).2
    = (Return ["owner@example.org"],
       emit (Logged "info" "Using fresh owners_file")
         (fetch_owners (EV := serving) API_OWNERS_URL 0 empty_world).2).
Proof.
  split; [vm_compute; reflexivity|].
  apply (fetch_owners_then_fresh (EV := serving) API_OWNERS_URL 0 60
           empty_world).
  - reflexivity.
  - intros f Hf. vm_compute in Hf. discriminate.
  - vm_compute. reflexivity.
Defined.

(** The endpoint is down and nothing is stored. *)
Lemma fetch_owners_endpoint_down_witness :
  (fetch_owners (EV := outage) API_OWNERS_URL 0 empty_world).1 = Return []
  ∧ owners_files (fetch_owners (EV := outage) API_OWNERS_URL 0 empty_world).2
    = owners_files empty_world.
Proof.
  apply (fetch_owners_endpoint_down (EV := outage) API_OWNERS_URL 0
           empty_world).
  vm_compute. discriminate.
Defined.

(** The enterprise approvers, resolved at time 0 and asked for again a
    minute later. *)
Lemma get_approvers_memoized_witness :
  ∃ w1, get_approvers (EV := outage) GATE_ENTERPRISE_SHIP 0 empty_world
        = (Return ENTERPRISE_APPROVERS, w1)
      ∧ get_approvers (EV := outage) GATE_ENTERPRISE_SHIP 60 w1
        = (Return ENTERPRISE_APPROVERS, w1).
Proof.
  eexists. split; [vm_compute; reflexivity|].
  eapply (proj1 (get_approvers_memoized (EV := outage) GATE_ENTERPRISE_SHIP
                   EnterpriseShipApproval 0 empty_world _ _ _ 60 _ _ _)).
  Unshelve.
  - reflexivity.
  - reflexivity.
  - reflexivity.
  - vm_compute. reflexivity.
Defined.

(** The testing approvers are a hard-coded list. *)
Lemma get_approvers_without_request_witness :
  trace (get_approvers (EV := outage) GATE_TESTING_SHIP 0 empty_world).2 = []
  ∧ (get_approvers (EV := outage) GATE_TESTING_SHIP 0 empty_world).1
    = Return TESTING_APPROVERS.
Proof.
  destruct (get_approvers_without_request (EV := outage) GATE_TESTING_SHIP
              TestingShipApproval 0 empty_world) as [Htrace Hlist].
  - reflexivity.
  - right. by eexists.
  - split; [exact Htrace|]. apply Hlist. reflexivity.
Defined.

(** The privacy ship gate takes the assignee of the privacy origin trial
    gate. *)
Lemma auto_assign_reviewer_reuses_witness :
  ∃ other_gate,
    gates two_privacy_gates_world !! integer_id other_gate = Some other_gate.2
    ∧ Gate.assignee_emails other_gate.2 ≠ []
    ∧ auto_assign_reviewer (EV := outage) privacy_gate two_privacy_gates_world
      = (Return (),
         put_gate (set_assignee_emails privacy_gate
                     (Gate.assignee_emails other_gate.2))
                  two_privacy_gates_world).
Proof.
  destruct (auto_assign_reviewer_reuses (EV := outage) privacy_gate
              two_privacy_gates_world PrivacyShipApproval 2
              (Gate.mk 1 GATE_PRIVACY_ORIGIN_TRIAL APPROVED
                       ["assigned@example.org"] [])
              PrivacyOriginTrialApproval)
    as (other & oafd & Hstored & _ & _ & (_ & _ & _ & Hemails) & Hcall).
  - reflexivity.
  - intros k g Hk _. unfold two_privacy_gates_world in Hk. cbn [gates] in Hk.
    apply lookup_insert_Some in Hk as [[<- <-]|[_ Hk]]; [by eexists|].
    apply lookup_singleton_Some in Hk as [<- <-]. by eexists.
  - reflexivity.
  - reflexivity.
  - reflexivity.
  - split_and!; [discriminate|reflexivity|reflexivity|discriminate].
  - exists other. split_and!; [exact Hstored|exact Hemails|exact Hcall].
Defined.

Lemma only_gate_of_privacy_world k g :
  gates privacy_world !! k = Some g → k = 3 ∧ g = privacy_gate.2.
Proof.
  unfold privacy_world. cbn [gates].
  by intros [<- <-]%lookup_singleton_Some.
Qed.

(** The rotation endpoint is down. *)
Lemma auto_assign_reviewer_stays_unassigned_witness :
  (auto_assign_reviewer (EV := outage) privacy_gate privacy_world).1
  = Return ()
  ∧ gates (auto_assign_reviewer (EV := outage) privacy_gate privacy_world).2
    = gates privacy_world.
Proof.
  destruct (auto_assign_reviewer_stays_unassigned (EV := outage) privacy_gate
              privacy_world PrivacyShipApproval) as (Hret & Hgates & _).
  - reflexivity.
  - intros k g [-> ->]%only_gate_of_privacy_world _.
    exists PrivacyShipApproval. split; [reflexivity|].
    intros (Hne & _). by apply Hne.
  - right. right. right. eexists. split; [reflexivity|].
    vm_compute. discriminate.
  - split; [exact Hret|exact Hgates].
Defined.

(** The rotation endpoint answers with one address. *)
Lemma auto_assign_reviewer_assigns_rotation_witness :
  gates (auto_assign_reviewer (EV := serving) privacy_gate privacy_world).2
    !! 3
  = Some (Gate.mk 1 GATE_PRIVACY_SHIP PREPARING ["oncall@example.org"] []).
Proof.
  destruct (auto_assign_reviewer_assigns_rotation (EV := serving) privacy_gate
              privacy_world PrivacyShipApproval
              "https://rotation.example.org/oncall" ["oncall@example.org"]
              ["oncall@example.org"]) as (_ & Hgate & _).
  - reflexivity.
  - intros k g [-> ->]%only_gate_of_privacy_world _.
    exists PrivacyShipApproval. split; [reflexivity|].
    intros (Hne & _). by apply Hne.
  - reflexivity.
  - reflexivity.
  - discriminate.
  - reflexivity.
  - reflexivity.
  - reflexivity.
  - reflexivity.
  - exact Hgate.
Defined.

(** A gate of type 999, which the catalog does not have. *)
Lemma auto_assign_reviewer_unknown_gate_type_witness :
  auto_assign_reviewer (EV := outage) (5, Gate.mk 1 999 PREPARING [] [])
                       empty_world
  = (Raise (KeyError 999), empty_world)
  ∧ Gate.state (update_gate_approval_state
                  (5, Gate.mk 1 999 PREPARING [] [])
                  [(0, vote_at APPROVED 1 "a")]).1.2
    = APPROVED.
Proof.
  destruct (auto_assign_reviewer_unknown_gate_type (EV := outage)
              (5, Gate.mk 1 999 PREPARING [] []) [(0, vote_at APPROVED 1 "a")]
              empty_world) as [Hraise Hstate].
  - reflexivity.
  - split; [exact Hraise|]. rewrite Hstate. reflexivity.
Defined.

(** The line of the OWNERS format with a trailing comment. *)
Example owners_of_text_sample :
  owners_of_text
    ("# API owners" +:+ String "010"
       ("a@b.com # comment" +:+ String "010"
          ("per-file *.json" +:+ String "010"
             (String "010" "  x@y.org  "))))
  = ["a@b.com"; "x@y.org"].
Proof. reflexivity. Qed.
